(** * ctapipe: muon line integration and camera geometry

    A shallow embedding of [ctapipe/calib/array/muon_integrator.py] and
    [ctapipe/io/camera.py].

    Numbers.  The Python code computes with binary64 floats; here every float
    is read as a real number ([R]) and every numpy function as the real
    function it approximates.  Python integers are [Z] or [nat].

    Exceptions.  A Python call either returns a value or raises; this is the
    [result] type below, with [try ... except:] as [try_except].

    Libraries.  shapely, numpy and scipy are not part of the repository.  The
    parts of their interfaces that the code calls are modelled in the modules
    [Shapely], [Numpy] and [Scipy] from their documented behaviour. *)

From Stdlib Require Import Reals Lra Lia ZArith List String Bool Arith.
Import ListNotations.
Local Open Scope R_scope.

(** ** Python exceptions and the result of a call *)

Inductive exn : Type :=
| ValueError (msg : string)
| NotImplementedError (msg : string)
| KeyError (msg : string)
| IndexError (msg : string)
| RuntimeError (msg : string).

Inductive result (A : Type) : Type :=
| Ok (a : A)
| Raise (e : exn).
Arguments Ok {A} a.
Arguments Raise {A} e.

Definition bind {A B : Type} (c : result A) (k : A -> result B) : result B :=
  match c with
  | Ok a => k a
  | Raise e => Raise e
  end.

Notation "x <- c ;; k" := (bind c (fun x => k))
  (at level 61, c at next level, right associativity).

(** [try: c  except: h] with a bare [except], which catches everything. *)
Definition try_except {A : Type} (c : result A) (h : result A) : result A :=
  match c with
  | Ok a => Ok a
  | Raise _ => h
  end.

(** [[f(x) for x in xs]], stopping at the first call that raises. *)
Fixpoint mapM {A B : Type} (f : A -> result B) (xs : list A) : result (list B) :=
  match xs with
  | [] => Ok []
  | x :: tl => y <- f x ;; ys <- mapM f tl ;; Ok (y :: ys)
  end.

(** ** The shapely interface used by the integrator *)

Module Shapely.

Definition point : Type := (R * R)%type.

(** A polygon is its exterior ring, given without the closing vertex. *)
Record polygon : Type := mkPolygon { exterior : list point }.

(** [Polygon(points)]: an empty sequence gives the empty polygon, a ring
    needs three points or more. *)
Definition Polygon (points : list point) : result polygon :=
  match points with
  | [] => Ok (mkPolygon [])
  | [_] | [_; _] =>
      Raise (ValueError "A LinearRing must have at least 3 coordinate tuples")
  | _ => Ok (mkPolygon points)
  end.

Definition linestring : Type := list point.

(** [LineString(coords)]: no point gives the empty line, one point is
    refused. *)
Definition LineString (cs : list point) : result linestring :=
  match cs with
  | [_] => Raise (ValueError "LineStrings must have at least 2 coordinate tuples")
  | _ => Ok cs
  end.

Definition dist (p q : point) : R :=
  sqrt ((fst q - fst p) * (fst q - fst p) + (snd q - snd p) * (snd q - snd p)).

(** [line.length]: the sum of the lengths of the consecutive segments. *)
Fixpoint length (ls : linestring) : R :=
  match ls with
  | p :: ((q :: _) as tl) => dist p q + length tl
  | _ => 0
  end.

(** What [a.intersection(b)] can be for a polygon and a line. *)
Inductive geometry : Type :=
| GeomEmpty                                        (* GEOMETRYCOLLECTION EMPTY *)
| GeomPoint (p : point)
| GeomLineString (cs : list point)
| GeomMultiLineString (parts : list (list point)).

(** [geom.coords]: only points and lines have a coordinate sequence. *)
Definition coords (g : geometry) : result (list point) :=
  match g with
  | GeomPoint p => Ok [p]
  | GeomLineString cs => Ok cs
  | GeomEmpty | GeomMultiLineString _ =>
      Raise (NotImplementedError
               "Multi-part geometries do not provide a coordinate sequence")
  end.

(** [geom.length] of an intersection: its arc length. *)
Definition geom_length (g : geometry) : R :=
  match g with
  | GeomEmpty | GeomPoint _ => 0
  | GeomLineString cs => length cs
  | GeomMultiLineString parts => fold_right (fun cs acc => length cs + acc) 0 parts
  end.

(** The geometric kernel: [polygon.intersection(line)]. *)
Class Kernel : Type := { intersection : polygon -> linestring -> geometry }.

(** *** A kernel for convex polygons

    The segment [p + t * d], [0 <= t <= 1], is clipped against the half
    plane to the left of every edge of the counter-clockwise ring. *)

Definition cross (u v : point) : R := fst u * snd v - snd u * fst v.
Definition sub (p q : point) : point := (fst p - fst q, snd p - snd q).
Definition along (p d : point) (t : R) : point := (fst p + t * fst d, snd p + t * snd d).

Fixpoint edges_from (first : point) (vs : list point) : list (point * point) :=
  match vs with
  | [] => []
  | a :: tl =>
      match tl with
      | [] => [(a, first)]
      | b :: _ => (a, b) :: edges_from first tl
      end
  end.

Definition ring_edges (vs : list point) : list (point * point) :=
  match vs with
  | [] => []
  | v :: _ => edges_from v vs
  end.

(** Twice the signed area of the ring: positive when counter-clockwise. *)
Definition signed_area2 (vs : list point) : R :=
  fold_right (fun e acc => cross (fst e) (snd e) + acc) 0 (ring_edges vs).

Definition clip_edge (p d : point) (iv : option (R * R)) (e : point * point)
  : option (R * R) :=
  match iv with
  | None => None
  | Some (t0, t1) =>
      let num := cross (sub (snd e) (fst e)) (sub p (fst e)) in
      let den := cross (sub (snd e) (fst e)) d in
      if Rlt_dec 0 den then Some (Rmax t0 (- num / den), t1)
      else if Rlt_dec den 0 then Some (t0, Rmin t1 (- num / den))
      else if Rlt_dec num 0 then None
      else Some (t0, t1)
  end.

Definition clip_ring (vs : list point) (p q : point) : geometry :=
  let d := sub q p in
  match fold_left (clip_edge p d) (ring_edges vs) (Some (0, 1)) with
  | None => GeomEmpty
  | Some (t0, t1) =>
      if Rlt_dec t0 t1 then GeomLineString [along p d t0; along p d t1]
      else if Rlt_dec t1 t0 then GeomEmpty
      else GeomPoint (along p d t0)
  end.

(** Defined for a two-point line and a convex ring of non-zero area, in
    either orientation, and for the empty polygon.  A line that misses the
    polygon gives the empty collection, whose [coords] raises, as shapely
    1.x reports it: the case the first [except] of [intersect_polygon] is
    written for ("incase no interception found return 0").  Later releases
    report an empty line instead, [GeomLineString []] here; the properties
    below that hold for every kernel cover both. *)
Definition convex_intersection (poly : polygon) (line : linestring) : geometry :=
  match line with
  | [p; q] =>
      let vs := exterior poly in
      if Rlt_dec 0 (signed_area2 vs) then clip_ring vs p q
      else if Rlt_dec (signed_area2 vs) 0 then clip_ring (rev vs) p q
      else GeomEmpty
  | _ => GeomEmpty
  end.

#[export] Instance convex_kernel : Kernel := {| intersection := convex_intersection |}.

(** *** A kernel for simple polygons

    The line through the segment [p + t * d] crosses the ring of a simple
    polygon an even number of times; in the order of [t], it runs inside
    the polygon from each crossing of odd rank to the next one.  The
    intersection consists of these stretches cut to [0 <= t <= 1]: none
    (the empty collection), one line, or several lines (a
    MULTILINESTRING, as a mirror that is not convex can give).  Defined
    for a two-point line in general position: no end on the ring, no
    vertex of the ring on the line through it. *)









End Shapely.

(** ** The numpy functions used by the code *)

Module Numpy.

(** Python's [int(x)] on a float: truncation towards zero. *)
Definition py_int (x : R) : Z :=
  if Rle_dec 0 x then Zfloor x else Zceil x.

(** [np.linspace(start, stop, num)] with the default [endpoint=True]:
    [num] samples [start + i * step], [step = (stop - start) / (num - 1)],
    the last one set to [stop]; one sample is [start] alone. *)
Definition linspace (start stop : R) (num : Z) : result (list R) :=
  if (num <? 0)%Z then
    Raise (ValueError "Number of samples must be non-negative")
  else
    match Z.to_nat num with
    | O => Ok []
    | S O => Ok [start]
    | S (S n as div) =>
        let step := (stop - start) / INR div in
        Ok (map (fun i => INR i * step + start) (seq 0 div) ++ [stop])
    end.

Definition zeros (n : Z) : result (list R) :=
  if (n <? 0)%Z then Raise (ValueError "negative dimensions are not allowed")
  else Ok (repeat 0 (Z.to_nat n)).

Definition ones (n : nat) : list R := repeat 1 n.

(** [l[i] = v] *)
Fixpoint setitem (l : list R) (i : nat) (v : R) : result (list R) :=
  match l, i with
  | [], _ => Raise (IndexError "index is out of bounds")
  | _ :: tl, O => Ok (v :: tl)
  | x :: tl, S i' => tl' <- setitem tl i' v ;; Ok (x :: tl')
  end.

(** Binary operations on two one-dimensional arrays broadcast: the lengths
    agree, or one of the arrays has a single element. *)
Definition broadcast2 (f : R -> R -> R) (a b : list R) : result (list R) :=
  if Nat.eqb (List.length a) (List.length b) then
    Ok (map (fun xy => f (fst xy) (snd xy)) (combine a b))
  else
    match a, b with
    | [x], _ => Ok (map (fun y => f x y) b)
    | _, [y] => Ok (map (fun x => f x y) a)
    | _, _ => Raise (ValueError "operands could not be broadcast together")
    end.

(** [np.arctan2(y, x)]: the angle of the point [(x, y)], in [(-PI, PI]]. *)
Definition arctan2 (y x : R) : R :=
  if Rlt_dec 0 x then atan (y / x)
  else if Rlt_dec x 0 then
    (if Rle_dec 0 y then atan (y / x) + PI else atan (y / x) - PI)
  else if Rlt_dec 0 y then PI / 2
  else if Rlt_dec y 0 then - (PI / 2)
  else 0.

(** [np.interp(x, xp, fp)] at one [x], for ascending [xp]: linear between
    the two sample points around [x], the end values outside. *)
Fixpoint interp_scan (x : R) (xp fp : list R) : R :=
  match xp, fp with
  | x0 :: xtl, f0 :: ftl =>
      match xtl, ftl with
      | x1 :: _, f1 :: _ =>
          if Rlt_dec x x1 then (f1 - f0) / (x1 - x0) * (x - x0) + f0
          else interp_scan x xtl ftl
      | _, _ => f0
      end
  | _, _ => 0
  end.

Definition interp1 (x : R) (xp fp : list R) : R :=
  if Rlt_dec x (hd 0 xp) then hd 0 fp
  else if Rlt_dec (last xp 0) x then last fp 0
  else interp_scan x xp fp.

Definition interp (x xp fp : list R) : result (list R) :=
  match xp with
  | [] => Raise (ValueError "array of sample points is empty")
  | _ =>
      if Nat.eqb (List.length xp) (List.length fp) then
        Ok (map (fun v => interp1 v xp fp) x)
      else Raise (ValueError "fp and xp are not of the same length.")
  end.

(** [np.array([a, b]).T]: the rows of a two-column array. *)
Definition array_T (a b : list R) : result (list (R * R)) :=
  if Nat.eqb (List.length a) (List.length b) then Ok (combine a b)
  else Raise (ValueError "setting an array element with a sequence")%string.

(** [np.meshgrid(x, y)]: two arrays with one row per element of [y] and
    one column per element of [x]. *)
Definition meshgrid (x y : list R) : list (list R) * list (list R) :=
  (map (fun _ => x) y, map (fun yi => map (fun _ => yi) x) y).

(** [a.ravel()]: the rows one after the other. *)
Definition ravel (a : list (list R)) : list R := List.concat a.

(** [a.mean()] *)
Definition mean (a : list R) : R := fold_right Rplus 0 a / INR (List.length a).

End Numpy.

(** ** The scipy functions used by the code *)

Module Scipy.

(** The first [n] elements of [full] repeated for ever, starting inside a
    period at [cur]. *)
Fixpoint cycle_take (n : nat) (cur full : list R) : list R :=
  match n with
  | O => []
  | S n' =>
      match cur with
      | x :: tl => x :: cycle_take n' tl full
      | [] =>
          match full with
          | [] => []
          | x :: tl => x :: cycle_take n' tl full
          end
      end
  end.

(** The line buffer of [mode="wrap"]: [size1] elements before the line and
    [size2] after it, taken from the line repeated periodically. *)
Definition extend_wrap (line : list R) (size1 size2 : nat) : list R :=
  rev (cycle_take size1 (rev line) (rev line)) ++ line ++
  cycle_take size2 line line.

Fixpoint dot (w xs : list R) : R :=
  match w, xs with
  | a :: w', x :: xs' => a * x + dot w' xs'
  | _, _ => 0
  end.

(** [scipy.ndimage.correlate1d(input, weights, mode="wrap")], origin 0:
    [output[i] = sum_j weights[j] * buffer[i + j]], the buffer being the
    line extended by [len(weights) // 2] elements on the left and the rest
    of the window on the right. *)
Definition correlate1d (input weights : list R) : result (list R) :=
  match weights with
  | [] => Raise (RuntimeError "no filter weights given")
  | _ =>
      let filter_size := List.length weights in
      let size1 := Nat.div filter_size 2 in
      let size2 := (filter_size - size1 - 1)%nat in
      let buffer := extend_wrap input size1 size2 in
      Ok (map (fun i => dot weights (skipn i buffer))
              (seq 0 (List.length input)))
  end.

Definition distance (p q : R * R) : R :=
  sqrt ((fst p - fst q) ^ 2 + (snd p - snd q) ^ 2).

Definition sqdistance (p q : R * R) : R :=
  (fst p - fst q) ^ 2 + (snd p - snd q) ^ 2.

(** The ball test of the tree, for the Euclidean norm: the squared
    distance is compared with the squared radius, so the sign of the
    radius plays no role. *)
Definition within (r : R) (x : R * R) (iq : nat * (R * R)) : bool :=
  if Rle_dec (sqdistance (snd iq) x) (r * r) then true else false.

(** [cKDTree(data).query_ball_point(x, r)]: the indices of the data points
    in the ball of radius [r] around [x].  The tree returns them in the
    order of its traversal; the list here is in ascending order, and the
    properties below speak of membership only. *)
Definition query_ball_point (data : list (R * R)) (x : R * R) (r : R) : list nat :=
  map fst (filter (within r x) (combine (seq 0 (List.length data)) data)).

End Scipy.

(** ** muon_integrator.py *)

Module MuonIntegrator.
Import Shapely Numpy Scipy.

Record MuonLineIntegrate : Type := mkMuonLineIntegrate {
  mirror : polygon;
  hole : polygon;
  pixel_width : R;
  oversample_bins : nat
}.

(** [MuonLineIntegrate.__init__] *)
Definition init (mirror_points hole_points : list point)
           (pixel_width : R) (oversample_bins : nat) : result MuonLineIntegrate :=
  m <- Polygon mirror_points ;;
  h <- Polygon hole_points ;;
  Ok (mkMuonLineIntegrate m h pixel_width oversample_bins).

Definition dir_to_line (centre_x centre_y angle length : R) : R * R :=
  let del_x := length * sin angle in
  let del_y := length * cos angle in
  let x1 := centre_x + del_x in
  let y1 := centre_y + del_y in
  (x1, y1).

(** The loop [for a in ang: l[i] = f(a); i += 1]. *)
Fixpoint fill_loop (f : R -> result R) (ang : list R) (i : nat) (l : list R)
  : result (list R) :=
  match ang with
  | [] => Ok l
  | a :: tl =>
      v <- f a ;;
      l' <- setitem l i v ;;
      fill_loop f tl (S i) l'
  end.

Definition pos_to_angle (centre_x centre_y : R) (pixel_x pixel_y : list R)
  : result (list R) :=
  let del_x := map (fun x => x - centre_x) pixel_x in
  let del_y := map (fun y => y - centre_y) pixel_y in
  broadcast2 arctan2 del_x del_y.

Section WithKernel.
Context {K : Kernel}.

Definition intersect_polygon (self : MuonLineIntegrate)
           (impact_x impact_y angle : R) : result R :=
  let '(x1, y1) := dir_to_line impact_x impact_y angle 100 in
  let line := [(impact_x, impact_y); (x1, y1)] in
  shapely_line <- LineString line ;;
  match coords (intersection (mirror self) shapely_line) with
  | Raise _ => Ok 0
  | Ok intersection_line =>
      line_intersect <- LineString intersection_line ;;
      length_hole <-
        try_except
          (intersection_hole <- coords (intersection (hole self) shapely_line) ;;
           hole_intersect <- LineString intersection_hole ;;
           Ok (length hole_intersect))
          (Ok 0) ;;
      Ok (length line_intersect - length_hole)
  end.

Definition bins_of (self : MuonLineIntegrate) (radius : R) : Z :=
  (py_int ((2 * PI * radius) / pixel_width self)
   * Z.of_nat (oversample_bins self))%Z.

Definition plot_pos (self : MuonLineIntegrate) (impact_x impact_y radius : R)
  : result (list R * list R) :=
  let bins := bins_of self radius in
  ang <- linspace 0 (2 * PI) bins ;;
  l <- zeros bins ;;
  l <- fill_loop (intersect_polygon self impact_x impact_y) ang 0 l ;;
  l <- correlate1d l (ones (oversample_bins self)) ;;
  let l := map (fun v => v / INR (oversample_bins self)) l in
  Ok (ang, l).

Definition image_prediction (self : MuonLineIntegrate)
           (impact_x impact_y centre_x centre_y radius width : R)
           (pixel_x pixel_y : list R) : result (list R) :=
  ang <- pos_to_angle centre_x centre_y pixel_x pixel_y ;;
  let ang := map (fun a => a + PI) ang in
  prof <- plot_pos self impact_x impact_y radius ;;
  let ang_prof := fst prof in
  let profile := snd prof in
  pred <- interp ang ang_prof profile ;;
  sq <- broadcast2 Rplus (map (fun x => (x - centre_x) ^ 2) pixel_x)
                         (map (fun y => (y - centre_y) ^ 2) pixel_y) ;;
  let radial_dist := map sqrt sq in
  let ring_dist := map (fun r => r - radius) radial_dist in
  pred <- broadcast2 Rmult pred
            (map (fun r => exp (- (r / width) ^ 2)) ring_dist) ;;
  Ok (map (fun v => v / sqrt (PI * 2 * width ^ 2)) pred).

End WithKernel.

End MuonIntegrator.

(** ** camera.py *)

Module Camera.
Import Numpy Scipy.

(** A unit of length to some power: its size in metres and the power. *)
Record Unit : Type := mkUnit { scale : R; dim : nat }.

Definition metre : Unit := mkUnit 1 1.

(** An astropy [Quantity] holding a one-dimensional array. *)
Record Quantity : Type := mkQuantity { value : list R; unit : Unit }.

Inductive cam_ident : Type :=
| CamName (name : string)
| CamNumber (n : Z).

Record CameraGeometry : Type := mkCameraGeometry {
  cam_id : cam_ident;
  pix_id : list nat;
  pix_x : Quantity;
  pix_y : Quantity;
  pix_area : Quantity;
  neighbors : list (list nat);
  pix_type : string
}.

Definition matrix2 : Type := ((R * R) * (R * R))%type.

Definition transpose (m : matrix2) : matrix2 :=
  ((fst (fst m), fst (snd m)), (snd (fst m), snd (snd m))).

(** [np.dot(m, [a, b])] for a 2x2 matrix and two rows of one length. *)
Definition dot2 (m : matrix2) (a b : list R) : result (list R * list R) :=
  cols <- array_T a b ;;
  Ok (map (fun xy => fst (fst m) * fst xy + snd (fst m) * snd xy) cols,
      map (fun xy => fst (snd m) * fst xy + snd (snd m) * snd xy) cols).

Section Rotate.
(** [ctapipe.core.linalg.rotation_matrix_2d] is outside this module: it
    turns anything that converts to an angle into a 2x2 matrix. *)
Variable angle_like : Type.
Variable rotation_matrix_2d : angle_like -> result matrix2.

(** [CameraGeometry.rotate]: the geometry after the call.  Nothing is
    assigned when a step raises. *)
Definition rotate (self : CameraGeometry) (angle : angle_like)
  : result CameraGeometry :=
  rotmat <- rotation_matrix_2d angle ;;
  rotated <- dot2 (transpose rotmat) (value (pix_x self)) (value (pix_y self)) ;;
  let self1 :=
    mkCameraGeometry (cam_id self) (pix_id self)
      (mkQuantity (fst rotated) (unit (pix_x self)))
      (pix_y self) (pix_area self) (neighbors self) (pix_type self) in
  let self2 :=
    mkCameraGeometry (cam_id self1) (pix_id self1) (pix_x self1)
      (mkQuantity (snd rotated) (unit (pix_x self1)))
      (pix_area self1) (neighbors self1) (pix_type self1) in
  Ok self2.
End Rotate.

(** [nn.remove(ii)]: drops the first occurrence, raises when there is none. *)
Fixpoint list_remove (l : list nat) (x : nat) : result (list nat) :=
  match l with
  | [] => Raise (ValueError "list.remove(x): x not in list")
  | y :: tl =>
      if Nat.eqb y x then Ok tl
      else tl' <- list_remove tl x ;; Ok (y :: tl')
  end.

Definition find_neighbor_pixels (pix_x pix_y : list R) (rad : R)
  : result (list (list nat)) :=
  points <- array_T pix_x pix_y ;;
  let indices := seq 0 (List.length pix_x) in
  let neighbors := map (fun p => query_ball_point points p rad) points in
  mapM (fun ni => list_remove (fst ni) (snd ni)) (combine neighbors indices).

Definition _npix_to_type : list (Z * (string * string)) :=
  [ (2048%Z, ("SST", "rectangular"));
    (1141%Z, ("MST", "hexagonal"));
    (1855%Z, ("LST", "hexagonal"));
    (11328%Z, ("SST", "rectangular")) ]%string.

(** [d.get(key, default)] *)
Fixpoint dict_get {V : Type} (d : list (Z * V)) (key : Z) (default : V) : V :=
  match d with
  | [] => default
  | (k, v) :: tl => if Z.eqb k key then v else dict_get tl key default
  end.

Definition guess_camera_type (npix : Z) : string * string :=
  dict_get _npix_to_type npix ("unknown", "hexagonal")%string.

Definition startswith (s pre : string) : bool := String.prefix pre s.

(** [q[i]] on an array quantity. *)
Definition getitem (q : Quantity) (i : nat) : result R :=
  match nth_error (value q) i with
  | Some v => Ok v
  | None => Raise (IndexError "index is out of bounds")
  end.

(** [@u.quantity_input] with [u.m]: the argument must be a length. *)
Definition check_length (q : Quantity) : result Datatypes.unit :=
  if Nat.eqb (dim (Camera.unit q)) 1 then Ok tt
  else Raise (ValueError "UnitsError: argument must be in units convertible to m").

Definition guess_camera_geometry (pix_x pix_y : Quantity) : result CameraGeometry :=
  _ <- check_length pix_x ;;
  _ <- check_length pix_y ;;
  let ct := guess_camera_type (Z.of_nat (List.length (value pix_x))) in
  let cam_id := fst ct in
  let pix_type := snd ct in
  x1 <- getitem pix_x 1 ;;
  x0 <- getitem pix_x 0 ;;
  let dx := x1 - x0 in
  y1 <- getitem pix_y 1 ;;
  y0 <- getitem pix_y 0 ;;
  let dy := y1 - y0 in
  (* dy ** 2 is converted to the unit of dx ** 2 *)
  let conv := scale (Camera.unit pix_y) / scale (Camera.unit pix_x) in
  let dist := sqrt (dx ^ 2 + (dy * conv) ^ 2) in
  area <-
    (if startswith pix_type "hex" then
       let rad := dist / sqrt 3 in
       Ok (rad ^ 2 * (3 * sqrt 3 / 2))
     else if startswith pix_type "rect" then
       Ok (dist ^ 2)
     else Raise (KeyError "unsupported pixel type")) ;;
  nbrs <- find_neighbor_pixels (value pix_x) (value pix_y) (dx + 1 / 100) ;;
  Ok (mkCameraGeometry (CamName cam_id)
        (seq 0 (List.length (value pix_x)))
        pix_x pix_y
        (mkQuantity (map (fun o => o * area) (ones (List.length (value pix_x))))
                    (mkUnit (scale (Camera.unit pix_x) ^ 2) 2))
        nbrs pix_type).

(** [q * u.m] on units. *)
Definition unit_mul (u v : Unit) : Unit :=
  mkUnit (scale u * scale v) (dim u + dim v).

Definition make_rectangular_camera_geometry (npix_x npix_y : Z)
           (range_x range_y : R * R) : result CameraGeometry :=
  bx <- linspace (fst range_x) (snd range_x) npix_x ;;
  by_ <- linspace (fst range_y) (snd range_y) npix_y ;;
  let grids := meshgrid bx by_ in
  let xx := mkQuantity (ravel (fst grids)) metre in
  let yy := mkQuantity (ravel (snd grids)) metre in
  let ids := seq 0 (Z.to_nat (npix_x * npix_y)) in
  x1 <- getitem xx 1 ;;
  x0 <- getitem xx 0 ;;
  let rr := map (fun o => o * (x1 - x0) / 2) (ones (List.length (value xx))) in
  nn <- find_neighbor_pixels (value xx) (value yy) (mean rr * (2001 / 1000)) ;;
  Ok (mkCameraGeometry (CamNumber (-1)) ids
        (mkQuantity (value xx) (unit_mul (Camera.unit xx) metre))
        (mkQuantity (value yy) (unit_mul (Camera.unit yy) metre))
        (mkQuantity (map (fun r => (2 * r) ^ 2) rr) (unit_mul metre metre))
        nn "rectangular").

End Camera.

(** ** Specification-side definitions and example instruments *)

Section SpecAndExamples.
Import Shapely Numpy Scipy MuonIntegrator Camera.

(** A rectangle with its sides along the axes. *)
Definition box (x0 x1 y0 y1 : R) : list point :=
  [(x0, y0); (x1, y0); (x1, y1); (x0, y1)].

Definition square : list point := box (-1) 1 (-1) 1.

(** The line that [intersect_polygon] builds. *)
Definition segment (impact_x impact_y angle : R) : linestring :=
  [(impact_x, impact_y); dir_to_line impact_x impact_y angle 100].


Definition square_muon : MuonLineIntegrate :=
  mkMuonLineIntegrate (mkPolygon square) (mkPolygon []) (2 / 10) 5.



(** A mirror whose hole is the square. *)
Definition ring_muon : MuonLineIntegrate :=
  mkMuonLineIntegrate (mkPolygon (box (-2) 2 (-2) 2)) (mkPolygon square) (2 / 10) 5.

(** A mirror seen with one bin per pixel and pixels of width 1. *)
Definition coarse_muon : MuonLineIntegrate :=
  mkMuonLineIntegrate (mkPolygon square) (mkPolygon []) 1 1.

(** Two bins per pixel, pixels of width 1. *)
Definition pair_muon : MuonLineIntegrate :=
  mkMuonLineIntegrate (mkPolygon square) (mkPolygon []) 1 2.

(** [f 0 + ... + f (n - 1)] *)
Definition rsum (f : nat -> R) (n : nat) : R :=
  fold_right Rplus 0 (map f (seq 0 n)).

(** The index [z] taken around a ring of [N] places. *)
Definition wrap_index (N : nat) (z : Z) : nat :=
  Z.to_nat (z mod Z.of_nat N).

(** A moving sum of window [k] around a ring: the place [i] collects the
    [k] places from [i - k // 2] on. *)
Definition circular_moving_sum (k : nat) (raw : list R) (i : nat) : R :=
  rsum (fun j => nth (wrap_index (List.length raw)
                        (Z.of_nat i + Z.of_nat j - Z.of_nat (k / 2))) raw 0) k.

Definition circular_moving_average (k : nat) (raw : list R) (i : nat) : R :=
  circular_moving_sum k raw i / INR k.

(** Products of 2x2 matrices, and matrices whose rows are orthogonal unit
    vectors (rotations and reflections). *)
Definition mat_mul (m n : matrix2) : matrix2 :=
  ((fst (fst m) * fst (fst n) + snd (fst m) * fst (snd n),
    fst (fst m) * snd (fst n) + snd (fst m) * snd (snd n)),
   (fst (snd m) * fst (fst n) + snd (snd m) * fst (snd n),
    fst (snd m) * snd (fst n) + snd (snd m) * snd (snd n))).

Definition mat_id : matrix2 := ((1, 0), (0, 1)).

Definition orthonormal_rows (m : matrix2) : Prop :=
  fst (fst m) * fst (fst m) + snd (fst m) * snd (fst m) = 1 /\
  fst (snd m) * fst (snd m) + snd (snd m) * snd (snd m) = 1 /\
  fst (fst m) * fst (snd m) + snd (fst m) * snd (snd m) = 0.

(** The pixel area that [guess_camera_geometry] computes from the distance
    of the first two pixels and the pixel type. *)
Definition guessed_area (pix_x pix_y : Quantity) : R :=
  let dx := nth 1 (value pix_x) 0 - nth 0 (value pix_x) 0 in
  let dy := nth 1 (value pix_y) 0 - nth 0 (value pix_y) 0 in
  let conv := scale (Camera.unit pix_y) / scale (Camera.unit pix_x) in
  let dist := sqrt (dx ^ 2 + (dy * conv) ^ 2) in
  if startswith (snd (guess_camera_type (Z.of_nat (List.length (value pix_x))))) "hex"
  then (dist / sqrt 3) ^ 2 * (3 * sqrt 3 / 2)
  else dist ^ 2.

(** The image of a point under the transpose of [m], as [rotate] computes it. *)
Definition turn (m : matrix2) (xy : R * R) : R * R :=
  (fst (fst m) * fst xy + fst (snd m) * snd xy,
   snd (fst m) * fst xy + snd (snd m) * snd xy).

(** A camera of two pixels and a quarter turn. *)
Definition two_pixels : CameraGeometry :=
  mkCameraGeometry (CamNumber 1) [0; 1]%nat
    (mkQuantity [1; 0] metre) (mkQuantity [0; 1] metre)
    (mkQuantity [1; 1] (mkUnit 1 2)) [[1%nat]; [0%nat]] "rectangular".

Definition quarter_turn (_ : Datatypes.unit) : result matrix2 :=
  Ok ((0, -1), (1, 0)).

(** The pitch of a grid of [npix] samples over [range]. *)
Definition pitch (range : R * R) (npix : Z) : R :=
  (snd range - fst range) / INR (Z.to_nat npix - 1).

(** A quarter turn and the quarter turn back. *)
Definition quarter_turn_back (b : bool) : result matrix2 :=
  if b then Ok ((0, -1), (1, 0)) else Ok ((0, 1), (-1, 0)).

End SpecAndExamples.

(** * Properties *)

(** ** The result monad *)

Section MapM.
Context {A B : Type} (f : A -> result B).

Lemma mapM_ok (xs : list A) :
  (forall x, In x xs -> exists y, f x = Ok y) ->
  exists ys, mapM f xs = Ok ys /\ List.length ys = List.length xs /\
             forall i dx dy, (i < List.length xs)%nat ->
                             f (nth i xs dx) = Ok (nth i ys dy).
Proof.
  induction xs as [|x tl IH]; intros Hall.
  - exists []. repeat split. intros i dx dy Hi. inversion Hi.
  - destruct (Hall x (or_introl eq_refl)) as [y Hy].
    destruct IH as [ys [Hm [Hl Hn]]].
    { intros z Hz. apply Hall. now right. }
    exists (y :: ys). cbn [mapM]. rewrite Hy. cbn [bind]. rewrite Hm. cbn [bind].
    repeat split.
    + cbn [List.length]. now rewrite Hl.
    + intros [|i] dx dy Hi; cbn [nth]; [assumption|].
      apply Hn. cbn [List.length] in Hi. lia.
Qed.

Lemma mapM_raise (xs : list A) (e : exn) :
  mapM f xs = Raise e -> exists x, In x xs /\ f x = Raise e.
Proof.
  induction xs as [|x tl IH]; cbn [mapM]; intros H; [discriminate|].
  destruct (f x) as [y|e'] eqn:Hx; cbn [bind] in H.
  - destruct (mapM f tl) as [ys|e'] eqn:Hm; cbn [bind] in H; [discriminate|].
    destruct (IH H) as [z [Hz Hf]]. exists z. split; [now right | assumption].
  - exists x. split; [now left | congruence].
Qed.

Lemma mapM_length (xs : list A) (ys : list B) :
  mapM f xs = Ok ys -> List.length ys = List.length xs.
Proof.
  revert ys. induction xs as [|x tl IH]; cbn [mapM]; intros ys H.
  - now inversion H.
  - destruct (f x) as [y|]; cbn [bind] in H; [|discriminate].
    destruct (mapM f tl) as [ys'|]; cbn [bind] in H; [|discriminate].
    inversion H; subst. cbn [List.length]. f_equal. now apply IH.
Qed.
End MapM.

(** ** camera.py *)

Section CameraProperties.
Import Numpy Scipy Camera.

Lemma array_T_ok (a b : list R) :
  List.length a = List.length b -> array_T a b = Ok (combine a b).
Proof. intros H. unfold array_T. now rewrite H, Nat.eqb_refl. Qed.

(** *** rotate *)

(** C7.  When the matrix is delivered and the two coordinate arrays have
    one length, [rotate] returns; the geometry it leaves has the same
    [cam_id], [pix_id], [pix_area], [neighbors] and [pix_type] and the same
    number of pixels, and its coordinates are the images of the old ones
    under the transposed matrix, in the unit of [pix_x]. *)
Theorem rotate_frame (angle_like : Type)
        (rotation_matrix_2d : angle_like -> result matrix2)
        (self : CameraGeometry) (angle : angle_like) (rotmat : matrix2) :
  rotation_matrix_2d angle = Ok rotmat ->
  List.length (value (pix_x self)) = List.length (value (pix_y self)) ->
  exists self',
    rotate angle_like rotation_matrix_2d self angle = Ok self' /\
    cam_id self' = cam_id self /\
    pix_id self' = pix_id self /\
    pix_area self' = pix_area self /\
    neighbors self' = neighbors self /\
    pix_type self' = pix_type self /\
    List.length (value (pix_x self')) = List.length (value (pix_x self)) /\
    List.length (value (pix_y self')) = List.length (value (pix_y self)) /\
    value (pix_x self') =
      map (fun xy => fst (fst rotmat) * fst xy + fst (snd rotmat) * snd xy)
          (combine (value (pix_x self)) (value (pix_y self))) /\
    value (pix_y self') =
      map (fun xy => snd (fst rotmat) * fst xy + snd (snd rotmat) * snd xy)
          (combine (value (pix_x self)) (value (pix_y self))) /\
    Camera.unit (pix_x self') = Camera.unit (pix_x self) /\
    Camera.unit (pix_y self') = Camera.unit (pix_x self).
Proof.
  intros Hm Hlen. unfold rotate, dot2. rewrite Hm. cbn [bind].
  rewrite (array_T_ok _ _ Hlen). cbn [bind].
  eexists. split; [reflexivity|].
  cbn [cam_id pix_id pix_area neighbors pix_type pix_x pix_y value Camera.unit
       fst snd transpose].
  repeat split;
    rewrite ?length_map, ?length_combine, <- ?Hlen, ?Nat.min_id; reflexivity.
Qed.

Lemma rotate_frame_witness :
  exists self',
    rotate Datatypes.unit quarter_turn two_pixels tt = Ok self' /\
    cam_id self' = cam_id two_pixels /\
    pix_id self' = pix_id two_pixels /\
    pix_area self' = pix_area two_pixels /\
    neighbors self' = neighbors two_pixels /\
    pix_type self' = pix_type two_pixels /\
    List.length (value (pix_x self')) = 2%nat /\
    List.length (value (pix_y self')) = 2%nat.
Proof.
  destruct (rotate_frame Datatypes.unit quarter_turn two_pixels tt
                         ((0, -1), (1, 0)) eq_refl eq_refl)
    as [g [H1 [H2 [H3 [H4 [H5 [H6 [H7 [H8 _]]]]]]]]].
  exists g. repeat split; assumption.
Defined.
End CameraProperties.

Section NeighborProperties.
Import Numpy Scipy Camera.

Lemma distance_sym (p q : R * R) : distance p q = distance q p.
Proof. unfold distance. f_equal. ring. Qed.

Lemma distance_refl (p : R * R) : distance p p = 0.
Proof.
  unfold distance.
  replace ((fst p - fst p) ^ 2 + (snd p - snd p) ^ 2) with 0 by ring.
  apply sqrt_0.
Qed.

Lemma In_combine_seq {A : Type} (l : list A) (s i : nat) (q d : A) :
  In (i, q) (combine (seq s (List.length l)) l) <->
  (s <= i < s + List.length l)%nat /\ nth (i - s) l d = q.
Proof.
  revert s. induction l as [|a tl IH]; intros s; cbn [List.length seq combine In].
  - split; [tauto | intros [H _]; lia].
  - rewrite IH. split.
    + intros [H | [H1 H2]].
      * inversion H; subst. rewrite Nat.sub_diag. split; [lia | reflexivity].
      * split; [lia|]. replace (i - s)%nat with (S (i - S s)) by lia. exact H2.
    + intros [H1 H2]. destruct (Nat.eq_dec i s) as [->|Hne].
      * left. rewrite Nat.sub_diag in H2. cbn [nth] in H2. now subst.
      * right. split; [lia|].
        replace (i - s)%nat with (S (i - S s)) in H2 by lia. exact H2.
Qed.

Lemma sqdistance_le (p q : R * R) (r : R) :
  sqdistance p q <= r * r <-> distance p q <= Rabs r.
Proof.
  assert (Hs : 0 <= sqdistance p q).
  { unfold sqdistance. pose proof (pow2_ge_0 (fst p - fst q)).
    pose proof (pow2_ge_0 (snd p - snd q)). lra. }
  change (distance p q) with (sqrt (sqdistance p q)).
  rewrite <- (sqrt_Rsqr_abs r). unfold Rsqr. split.
  - intros H. now apply sqrt_le_1_alt.
  - intros H. apply sqrt_le_0; [exact Hs | | exact H].
    pose proof (Rle_0_sqr r) as H0. exact H0.
Qed.

Lemma query_ball_point_In (data : list (R * R)) (x : R * R) (r : R) (j : nat) :
  In j (query_ball_point data x r) <->
  (j < List.length data)%nat /\ distance (nth j data (0, 0)) x <= Rabs r.
Proof.
  unfold query_ball_point. rewrite in_map_iff. split.
  - intros [[i q] [Hj Hin]]. cbn [fst] in Hj. subst i.
    apply filter_In in Hin. destruct Hin as [Hin Hw].
    apply (In_combine_seq data 0 j q (0, 0)) in Hin. destruct Hin as [Hlt Hq].
    rewrite Nat.sub_0_r in Hq. split; [lia|].
    unfold within in Hw. cbn [snd] in Hw. rewrite Hq.
    destruct (Rle_dec (sqdistance q x) (r * r)) as [Hle|]; [|discriminate].
    now apply sqdistance_le.
  - intros [Hlt Hd]. exists (j, nth j data (0, 0)). split; [reflexivity|].
    apply filter_In. split.
    + apply (In_combine_seq data 0 j _ (0, 0)). rewrite Nat.sub_0_r.
      split; [lia | reflexivity].
    + unfold within. cbn [snd].
      destruct (Rle_dec (sqdistance (nth j data (0, 0)) x) (r * r)) as [|Hn];
        [reflexivity|].
      exfalso. apply Hn. now apply sqdistance_le.
Qed.

Lemma filtered_indices_NoDup {A : Type} (keep : nat * A -> bool) (l : list A) (s : nat) :
  NoDup (map fst (filter keep (combine (seq s (List.length l)) l))) /\
  forall j, In j (map fst (filter keep (combine (seq s (List.length l)) l))) ->
            (s <= j)%nat.
Proof.
  revert s. induction l as [|a tl IH]; intros s; cbn [List.length seq combine filter map].
  - split; [constructor | intros j []].
  - destruct (IH (S s)) as [Hnd Hge].
    destruct (keep (s, a)); cbn [map fst].
    + split.
      * constructor; [|assumption]. intros Hin. apply Hge in Hin. lia.
      * intros j [<- | Hin]; [lia | apply Hge in Hin; lia].
    + split; [assumption | intros j Hin; apply Hge in Hin; lia].
Qed.

Lemma query_ball_point_NoDup (data : list (R * R)) (x : R * R) (r : R) :
  NoDup (query_ball_point data x r).
Proof. apply (filtered_indices_NoDup (within r x) data 0). Qed.

Lemma list_remove_spec (l : list nat) (x : nat) :
  NoDup l -> In x l ->
  exists l', list_remove l x = Ok l' /\ forall j, In j l' <-> In j l /\ j <> x.
Proof.
  induction l as [|y tl IH]; intros Hnd Hin; [destruct Hin|].
  inversion Hnd as [|? ? Hny Hnd']; subst. cbn [list_remove].
  destruct (Nat.eqb y x) eqn:E.
  - apply Nat.eqb_eq in E. subst y. exists tl. split; [reflexivity|].
    intros j. cbn [In]. split.
    + intros Hj. split; [now right|]. intros ->. contradiction.
    + intros [[Hj | Hj] Hne]; [congruence | assumption].
  - apply Nat.eqb_neq in E. destruct Hin as [Hin | Hin]; [contradiction|].
    destruct (IH Hnd' Hin) as [l' [Hr Hl']]. rewrite Hr. cbn [bind].
    exists (y :: l'). split; [reflexivity|].
    intros j. cbn [In]. rewrite Hl'. split.
    + intros [Hj | [Hj Hne]]; [split; [now left | congruence] | split; [now right | assumption]].
    + intros [[Hj | Hj] Hne]; [now left | right; now split].
Qed.

Lemma list_remove_raises (l : list nat) (x : nat) (e : exn) :
  list_remove l x = Raise e -> e = ValueError "list.remove(x): x not in list".
Proof.
  induction l as [|y tl IH]; cbn [list_remove]; intros H.
  - congruence.
  - destruct (Nat.eqb y x); [discriminate|].
    destruct (list_remove tl x) as [l'|e'] eqn:E; cbn [bind] in H; [discriminate|].
    inversion H; subst. now apply IH.
Qed.

(** The neighbours of pixel [i] are the other pixels within [|rad|] of it:
    every pixel lies in its own ball, whatever the sign of the radius, so
    the removal of the pixel itself always succeeds. *)
Lemma find_neighbor_pixels_spec_abs (pix_x pix_y : list R) (rad : R) :
  List.length pix_x = List.length pix_y ->
  exists nbrs,
    find_neighbor_pixels pix_x pix_y rad = Ok nbrs /\
    List.length nbrs = List.length pix_x /\
    forall i j, (i < List.length pix_x)%nat ->
      (In j (nth i nbrs []) <->
       (j < List.length pix_x)%nat /\ j <> i /\
       distance (nth j (combine pix_x pix_y) (0, 0))
                (nth i (combine pix_x pix_y) (0, 0)) <= Rabs rad).
Proof.
  intros Hlen. unfold find_neighbor_pixels.
  rewrite (array_T_ok _ _ Hlen). cbn [bind].
  set (points := combine pix_x pix_y).
  assert (Hn : List.length points = List.length pix_x).
  { unfold points. rewrite length_combine, <- Hlen. apply Nat.min_id. }
  set (nb := map (fun p => query_ball_point points p rad) points).
  set (idx := seq 0 (List.length pix_x)).
  assert (Hlnb : List.length nb = List.length idx).
  { unfold nb, idx. now rewrite length_map, length_seq. }
  assert (Hlc : List.length (combine nb idx) = List.length pix_x).
  { rewrite length_combine, Hlnb, Nat.min_id. unfold idx. apply length_seq. }
  assert (Hnth : forall i, (i < List.length pix_x)%nat ->
            nth i (combine nb idx) ([], 0%nat) =
            (query_ball_point points (nth i points (0, 0)) rad, i)).
  { intros i Hi. rewrite (combine_nth _ _ _ _ _ Hlnb). f_equal.
    - unfold nb.
      rewrite (nth_indep _ [] (query_ball_point points (0, 0) rad))
        by (rewrite length_map; lia).
      apply (map_nth (fun p => query_ball_point points p rad)).
    - unfold idx. rewrite seq_nth by assumption. reflexivity. }
  assert (Hself : forall i, (i < List.length pix_x)%nat ->
            In i (query_ball_point points (nth i points (0, 0)) rad)).
  { intros i Hi. apply query_ball_point_In. split; [lia|].
    rewrite distance_refl. apply Rabs_pos. }
  destruct (mapM_ok (fun ni => list_remove (fst ni) (snd ni)) (combine nb idx))
    as [nbrs [Hm [Hl Hres]]].
  { intros ni Hin. apply (In_nth _ _ ([], 0%nat)) in Hin.
    destruct Hin as [i [Hi <-]]. rewrite Hlc in Hi. rewrite (Hnth i Hi). cbn [fst snd].
    destruct (list_remove_spec _ i (query_ball_point_NoDup points _ rad) (Hself i Hi))
      as [l' [Hr _]].
    now exists l'. }
  exists nbrs. split; [exact Hm|]. split; [now rewrite Hl|].
  intros i j Hi.
  assert (Hi' : (i < List.length (combine nb idx))%nat) by now rewrite Hlc.
  specialize (Hres i ([], 0%nat) [] Hi'). rewrite (Hnth i Hi) in Hres. cbn [fst snd] in Hres.
  destruct (list_remove_spec _ i (query_ball_point_NoDup points _ rad) (Hself i Hi))
    as [l' [Hr Hl']].
  rewrite Hr in Hres. inversion Hres as [Heq]. rewrite <- Heq, Hl'.
  rewrite query_ball_point_In, Hn. tauto.
Qed.

(** For a radius that is not negative, the neighbours of pixel [i] are the
    other pixels within [rad] of it. *)
Lemma find_neighbor_pixels_spec (pix_x pix_y : list R) (rad : R) :
  0 <= rad -> List.length pix_x = List.length pix_y ->
  exists nbrs,
    find_neighbor_pixels pix_x pix_y rad = Ok nbrs /\
    List.length nbrs = List.length pix_x /\
    forall i j, (i < List.length pix_x)%nat ->
      (In j (nth i nbrs []) <->
       (j < List.length pix_x)%nat /\ j <> i /\
       distance (nth j (combine pix_x pix_y) (0, 0))
                (nth i (combine pix_x pix_y) (0, 0)) <= rad).
Proof.
  intros Hrad Hlen.
  destruct (find_neighbor_pixels_spec_abs pix_x pix_y rad Hlen) as [nbrs H].
  exists nbrs. now rewrite (Rabs_pos_eq rad Hrad) in H.
Qed.

(** C8.  For a radius [rad >= 0] and [N] points given by their two
    coordinate arrays, [find_neighbor_pixels] returns [N] lists; [j] is in the
    list of [i] exactly when [i] is in the list of [j], for [i <> j], and no
    list holds the index of its own point. *)
Theorem find_neighbor_pixels_symmetric (pix_x pix_y : list R) (rad : R) :
  0 <= rad -> List.length pix_x = List.length pix_y ->
  exists nbrs,
    find_neighbor_pixels pix_x pix_y rad = Ok nbrs /\
    List.length nbrs = List.length pix_x /\
    (forall i j, (i < List.length pix_x)%nat -> (j < List.length pix_x)%nat ->
                 i <> j -> (In j (nth i nbrs []) <-> In i (nth j nbrs []))) /\
    (forall i, (i < List.length pix_x)%nat -> ~ In i (nth i nbrs [])).
Proof.
  intros Hrad Hlen.
  destruct (find_neighbor_pixels_spec pix_x pix_y rad Hrad Hlen) as [nbrs [Hf [Hl Hs]]].
  exists nbrs. split; [exact Hf|]. split; [exact Hl|]. split.
  - intros i j Hi Hj Hne. rewrite (Hs i j Hi), (Hs j i Hj).
    rewrite (distance_sym (nth j _ _) (nth i _ _)).
    split; intros [_ [_ Hd]]; (split; [assumption | split; [congruence | assumption]]).
  - intros i Hi Hin. apply (Hs i i Hi) in Hin. destruct Hin as [_ [Hne _]]. now apply Hne.
Qed.

Lemma find_neighbor_pixels_symmetric_witness :
  0 <= 1 /\ List.length [0; 1; 3] = List.length [0; 0; 0] /\
  exists nbrs,
    find_neighbor_pixels [0; 1; 3] [0; 0; 0] 1 = Ok nbrs /\
    List.length nbrs = 3%nat /\
    (forall i j, (i < 3)%nat -> (j < 3)%nat ->
                 i <> j -> (In j (nth i nbrs []) <-> In i (nth j nbrs []))) /\
    (forall i, (i < 3)%nat -> ~ In i (nth i nbrs [])).
Proof.
  split; [lra|]. split; [reflexivity|].
  apply (find_neighbor_pixels_symmetric [0; 1; 3] [0; 0; 0] 1); [lra | reflexivity].
Defined.

End NeighborProperties.

Section GuessProperties.
Import Numpy Scipy Camera.

Lemma guess_camera_type_cases (npix : Z) :
  guess_camera_type npix = ("SST", "rectangular")%string \/
  guess_camera_type npix = ("MST", "hexagonal")%string \/
  guess_camera_type npix = ("LST", "hexagonal")%string \/
  guess_camera_type npix = ("unknown", "hexagonal")%string.
Proof.
  unfold guess_camera_type, _npix_to_type. cbn [dict_get].
  destruct (Z.eqb 2048 npix); [now left|].
  destruct (Z.eqb 1141 npix); [now right; left|].
  destruct (Z.eqb 1855 npix); [now right; right; left|].
  destruct (Z.eqb 11328 npix); [now left | now right; right; right].
Qed.

Lemma guess_camera_type_pix_type (npix : Z) :
  snd (guess_camera_type npix) = "hexagonal"%string \/
  snd (guess_camera_type npix) = "rectangular"%string.
Proof.
  destruct (guess_camera_type_cases npix) as [H | [H | [H | H]]];
    rewrite H; cbn [snd]; auto.
Qed.

Lemma find_neighbor_pixels_raises (pix_x pix_y : list R) (rad : R) (e : exn) :
  find_neighbor_pixels pix_x pix_y rad = Raise e -> exists msg, e = ValueError msg.
Proof.
  unfold find_neighbor_pixels, array_T.
  destruct (Nat.eqb (List.length pix_x) (List.length pix_y)); cbn [bind]; intros H.
  - apply mapM_raise in H. destruct H as [ni [_ H]].
    apply list_remove_raises in H. eexists. exact H.
  - inversion H. eexists. reflexivity.
Qed.

(** C10.  Whatever the pixel count, [guess_camera_type] answers with the
    pixel type ["hexagonal"] or ["rectangular"], ["hexagonal"] for a count
    that is not in the table; and no call of [guess_camera_geometry] ends in
    the [KeyError] of its last branch. *)
Theorem guess_camera_geometry_no_KeyError :
  (forall npix : Z,
      snd (guess_camera_type npix) = "hexagonal"%string \/
      snd (guess_camera_type npix) = "rectangular"%string) /\
  (forall npix : Z,
      npix = 2048%Z \/ npix = 1141%Z \/ npix = 1855%Z \/ npix = 11328%Z \/
      guess_camera_type npix = ("unknown", "hexagonal")%string) /\
  (forall (pix_x pix_y : Quantity) (msg : string),
      guess_camera_geometry pix_x pix_y <> Raise (KeyError msg)).
Proof.
  split; [exact guess_camera_type_pix_type|]. split.
  - intros npix. unfold guess_camera_type, _npix_to_type. cbn [dict_get].
    destruct (Z.eqb_spec 2048 npix); [now left|].
    destruct (Z.eqb_spec 1141 npix); [now right; left|].
    destruct (Z.eqb_spec 1855 npix); [now right; right; left|].
    destruct (Z.eqb_spec 11328 npix); [now right; right; right; left|].
    now right; right; right; right.
  - intros pix_x pix_y msg. unfold guess_camera_geometry, check_length, getitem.
    destruct (Nat.eqb (dim (Camera.unit pix_x)) 1); cbn [bind]; [|discriminate].
    destruct (Nat.eqb (dim (Camera.unit pix_y)) 1); cbn [bind]; [|discriminate].
    destruct (nth_error (value pix_x) 1); cbn [bind]; [|discriminate].
    destruct (nth_error (value pix_x) 0); cbn [bind]; [|discriminate].
    destruct (nth_error (value pix_y) 1); cbn [bind]; [|discriminate].
    destruct (nth_error (value pix_y) 0); cbn [bind]; [|discriminate].
    destruct (guess_camera_type_pix_type (Z.of_nat (List.length (value pix_x))))
      as [Ht | Ht]; rewrite Ht; cbn [startswith String.prefix]; cbn [bind].
    all: match goal with
         | |- context [find_neighbor_pixels ?a ?b ?c] =>
             destruct (find_neighbor_pixels a b c) as [nb|e] eqn:E; cbn [bind];
             [discriminate | apply find_neighbor_pixels_raises in E;
                             destruct E as [m ->]; discriminate]
         end.
Qed.

End GuessProperties.

(** ** muon_integrator.py: angles *)

Section AngleProperties.
Import Numpy MuonIntegrator.



Lemma linspace_two_or_more (start stop : R) (n : nat) :
  linspace start stop (Z.of_nat (S (S n))) =
  Ok (map (fun i => INR i * ((stop - start) / INR (S n)) + start) (seq 0 (S n))
      ++ [stop]).
Proof.
  unfold linspace.
  destruct (Z.ltb_spec (Z.of_nat (S (S n))) 0) as [H | _]; [lia|].
  rewrite Nat2Z.id. reflexivity.
Qed.

End AngleProperties.

(** ** The convex kernel on the example polygons *)

Section ClipSteps.
Import Shapely.
Variables (p d : point) (t0 t1 : R) (a b : point).

Lemma clip_edge_enter (t : R) :
  0 < cross (sub b a) d ->
  Rmax t0 (- cross (sub b a) (sub p a) / cross (sub b a) d) = t ->
  clip_edge p d (Some (t0, t1)) (a, b) = Some (t, t1).
Proof.
  intros Hd Ht. unfold clip_edge. cbn [fst snd].
  destruct (Rlt_dec 0 (cross (sub b a) d)); [now rewrite Ht | contradiction].
Qed.

Lemma clip_edge_leave (t : R) :
  cross (sub b a) d < 0 ->
  Rmin t1 (- cross (sub b a) (sub p a) / cross (sub b a) d) = t ->
  clip_edge p d (Some (t0, t1)) (a, b) = Some (t0, t).
Proof.
  intros Hd Ht. unfold clip_edge. cbn [fst snd].
  destruct (Rlt_dec 0 (cross (sub b a) d)); [lra|].
  destruct (Rlt_dec (cross (sub b a) d) 0); [now rewrite Ht | contradiction].
Qed.

Lemma clip_edge_parallel :
  cross (sub b a) d = 0 -> 0 <= cross (sub b a) (sub p a) ->
  clip_edge p d (Some (t0, t1)) (a, b) = Some (t0, t1).
Proof.
  intros Hd Hn. unfold clip_edge. cbn [fst snd].
  destruct (Rlt_dec 0 (cross (sub b a) d)); [lra|].
  destruct (Rlt_dec (cross (sub b a) d) 0); [lra|].
  destruct (Rlt_dec (cross (sub b a) (sub p a)) 0); [lra | reflexivity].
Qed.

Lemma clip_edge_outside :
  cross (sub b a) d = 0 -> cross (sub b a) (sub p a) < 0 ->
  clip_edge p d (Some (t0, t1)) (a, b) = None.
Proof.
  intros Hd Hn. unfold clip_edge. cbn [fst snd].
  destruct (Rlt_dec 0 (cross (sub b a) d)); [lra|].
  destruct (Rlt_dec (cross (sub b a) d) 0); [lra|].
  destruct (Rlt_dec (cross (sub b a) (sub p a)) 0); [reflexivity | contradiction].
Qed.
End ClipSteps.

Section KernelExamples.
Import Shapely MuonIntegrator.

Lemma box_ccw (x0 x1 y0 y1 : R) :
  x0 < x1 -> y0 < y1 -> 0 < signed_area2 (box x0 x1 y0 y1).
Proof.
  intros Hx Hy. unfold signed_area2, box.
  cbn [ring_edges edges_from fold_right fst snd]. unfold cross. cbn [fst snd]. nra.
Qed.

Lemma convex_intersection_box (x0 x1 y0 y1 : R) (p q : point) :
  x0 < x1 -> y0 < y1 ->
  convex_intersection (mkPolygon (box x0 x1 y0 y1)) [p; q] =
  clip_ring (box x0 x1 y0 y1) p q.
Proof.
  intros Hx Hy. unfold convex_intersection. cbn [exterior].
  destruct (Rlt_dec 0 (signed_area2 (box x0 x1 y0 y1))) as [_ | H];
    [reflexivity | destruct (H (box_ccw _ _ _ _ Hx Hy))].
Qed.

Lemma convex_intersection_empty_polygon (line : linestring) :
  convex_intersection (mkPolygon []) line = GeomEmpty.
Proof.
  unfold convex_intersection. destruct line as [|p [|q [|r tl]]]; try reflexivity.
  cbn [exterior]. unfold signed_area2. cbn [ring_edges fold_right].
  destruct (Rlt_dec 0 0) as [H | _]; [lra|]. reflexivity.
Qed.

(** A ray that leaves a point of the vertical line [x = px] inside the box
    [x0 < px < x1], [y0 <= py < y1], straight up, meets the box between the
    point and the upper side. *)
Lemma clip_box_upwards (x0 x1 y0 y1 px py : R) :
  x0 < px < x1 -> y0 <= py < y1 -> y1 < py + 100 ->
  clip_ring (box x0 x1 y0 y1) (px, py) (px + 100 * 0, py + 100 * 1) =
  GeomLineString [(px, py); (px, y1)].
Proof.
  intros Hx Hy Hfar. unfold clip_ring, box. cbn [ring_edges edges_from fold_left].
  rewrite (clip_edge_enter _ _ _ _ _ _ 0).
  2:{ unfold cross, sub; cbn [fst snd]. nra. }
  2:{ unfold cross, sub; cbn [fst snd].
      apply Rmax_left.
      replace ((x1 - x0) * (py + 100 * 1 - py) - (y0 - y0) * (px + 100 * 0 - px))
        with (100 * (x1 - x0)) by ring.
      replace (- ((x1 - x0) * (py - y0) - (y0 - y0) * (px - x0)) / (100 * (x1 - x0)))
        with (- ((py - y0) / 100)) by (field; lra).
      lra. }
  rewrite clip_edge_parallel.
  2:{ unfold cross, sub; cbn [fst snd]. ring. }
  2:{ unfold cross, sub; cbn [fst snd]. nra. }
  rewrite (clip_edge_leave _ _ _ _ _ _ ((y1 - py) / 100)).
  2:{ unfold cross, sub; cbn [fst snd]. nra. }
  2:{ unfold cross, sub; cbn [fst snd].
      replace ((x0 - x1) * (py + 100 * 1 - py) - (y1 - y1) * (px + 100 * 0 - px))
        with (- (100 * (x1 - x0))) by ring.
      replace (- ((x0 - x1) * (py - y1) - (y1 - y1) * (px - x1)) / - (100 * (x1 - x0)))
        with ((y1 - py) / 100) by (field; lra).
      apply Rmin_right. lra. }
  rewrite clip_edge_parallel.
  2:{ unfold cross, sub; cbn [fst snd]. ring. }
  2:{ unfold cross, sub; cbn [fst snd]. nra. }
  destruct (Rlt_dec 0 ((y1 - py) / 100)) as [_ | H]; [|exfalso; lra].
  unfold along, sub. cbn [fst snd]. repeat f_equal; lra.
Qed.

(** From a point of the upper side the same ray touches the box in that
    point only. *)
Lemma clip_box_upwards_from_top (x0 x1 y0 y1 px : R) :
  x0 < px < x1 -> y0 < y1 ->
  clip_ring (box x0 x1 y0 y1) (px, y1) (px + 100 * 0, y1 + 100 * 1) =
  GeomPoint (px, y1).
Proof.
  intros Hx Hy. unfold clip_ring, box. cbn [ring_edges edges_from fold_left].
  rewrite (clip_edge_enter _ _ _ _ _ _ 0).
  2:{ unfold cross, sub; cbn [fst snd]. nra. }
  2:{ unfold cross, sub; cbn [fst snd].
      apply Rmax_left.
      replace ((x1 - x0) * (y1 + 100 * 1 - y1) - (y0 - y0) * (px + 100 * 0 - px))
        with (100 * (x1 - x0)) by ring.
      replace (- ((x1 - x0) * (y1 - y0) - (y0 - y0) * (px - x0)) / (100 * (x1 - x0)))
        with (- ((y1 - y0) / 100)) by (field; lra).
      lra. }
  rewrite clip_edge_parallel.
  2:{ unfold cross, sub; cbn [fst snd]. ring. }
  2:{ unfold cross, sub; cbn [fst snd]. nra. }
  rewrite (clip_edge_leave _ _ _ _ _ _ 0).
  2:{ unfold cross, sub; cbn [fst snd]. nra. }
  2:{ unfold cross, sub; cbn [fst snd].
      replace ((x0 - x1) * (y1 + 100 * 1 - y1) - (y1 - y1) * (px + 100 * 0 - px))
        with (- (100 * (x1 - x0))) by ring.
      replace (- ((x0 - x1) * (y1 - y1) - (y1 - y1) * (px - x1)) / - (100 * (x1 - x0)))
        with 0 by (field; lra).
      apply Rmin_right. lra. }
  rewrite clip_edge_parallel.
  2:{ unfold cross, sub; cbn [fst snd]. ring. }
  2:{ unfold cross, sub; cbn [fst snd]. nra. }
  destruct (Rlt_dec 0 0) as [H | _]; [exfalso; lra|].
  unfold along, sub. cbn [fst snd]. repeat f_equal; lra.
Qed.

End KernelExamples.

(** ** muon_integrator.py: intersect_polygon *)

Section RingSteps.
Import Shapely.
Variables (p d a b : point).








End RingSteps.


Section IntersectProperties.
Import Shapely MuonIntegrator.

Lemma intersect_polygon_unfold {K : Kernel} (self : MuonLineIntegrate)
      (impact_x impact_y angle : R) :
  intersect_polygon self impact_x impact_y angle =
  match coords (intersection (mirror self) (segment impact_x impact_y angle)) with
  | Raise _ => Ok 0
  | Ok intersection_line =>
      line_intersect <- LineString intersection_line ;;
      length_hole <-
        try_except
          (intersection_hole <-
             coords (intersection (hole self) (segment impact_x impact_y angle)) ;;
           hole_intersect <- LineString intersection_hole ;;
           Ok (length hole_intersect))
          (Ok 0) ;;
      Ok (length line_intersect - length_hole)
  end.
Proof. reflexivity. Qed.



Lemma segment_upwards (impact_x impact_y angle : R) :
  sin angle = 0 -> cos angle = 1 ->
  segment impact_x impact_y angle =
  [(impact_x, impact_y); (impact_x + 100 * 0, impact_y + 100 * 1)].
Proof. intros Hs Hc. unfold segment, dir_to_line. now rewrite Hs, Hc. Qed.

Lemma length_vertical (x y0 y1 : R) :
  y0 <= y1 -> length [(x, y0); (x, y1)] = y1 - y0.
Proof.
  intros H. cbn [length]. unfold dist. cbn [fst snd].
  replace ((x - x) * (x - x) + (y1 - y0) * (y1 - y0)) with ((y1 - y0) * (y1 - y0)) by ring.
  rewrite sqrt_square by lra. lra.
Qed.

(** From the centre of the square, along any angle with [sin = 0] and
    [cos = 1], the integrator measures the way up to the upper side. *)
Lemma intersect_square_upwards (pw : R) (k : nat) (angle : R) :
  sin angle = 0 -> cos angle = 1 ->
  intersect_polygon (mkMuonLineIntegrate (mkPolygon square) (mkPolygon []) pw k)
                    0 0 angle = Ok 1.
Proof.
  intros Hs Hc. rewrite intersect_polygon_unfold. cbn [mirror hole].
  rewrite (segment_upwards _ _ _ Hs Hc).
  cbn [intersection convex_kernel].
  unfold square. rewrite convex_intersection_box by lra.
  rewrite clip_box_upwards by lra.
  rewrite convex_intersection_empty_polygon.
  cbn [coords LineString bind try_except].
  rewrite length_vertical by lra. f_equal. lra.
Qed.

(** C6.  On the square mirror with the empty hole, [pixel_width = 0.2] and
    [oversample_bins = 5], [intersect_polygon(0, 0, 0)] is the length of the
    ray from the impact point to the upper side of the square: 1. *)
Theorem intersect_square_centre_is_one :
  init square [] (2 / 10) 5 = Ok square_muon /\
  intersect_polygon square_muon 0 0 0 = Ok 1.
Proof.
  split; [reflexivity|].
  apply intersect_square_upwards; [apply sin_0 | apply cos_0].
Qed.

Lemma intersect_square_centre_is_not_two :
  init square [] (2 / 10) 5 = Ok square_muon /\
  intersect_polygon square_muon 0 0 0 <> Ok 2.
Proof.
  split; [reflexivity|].
  unfold square_muon. rewrite intersect_square_upwards by (apply sin_0 || apply cos_0).
  intros H. inversion H. lra.
Qed.

(** C2.  An impact point on the upper side of the square mirror, looking
    up: the line meets the mirror in one point and the call raises.  The same
    contact with the hole is caught and counts 0. *)
Theorem intersect_polygon_raises_on_mirror_contact :
  intersect_polygon square_muon 0 1 0 =
    Raise (ValueError "LineStrings must have at least 2 coordinate tuples") /\
  intersect_polygon ring_muon 0 1 0 = Ok 1.
Proof.
  split.
  - rewrite intersect_polygon_unfold. cbn [mirror hole square_muon].
    rewrite (segment_upwards _ _ _ sin_0 cos_0).
    cbn [intersection convex_kernel].
    unfold square. rewrite convex_intersection_box by lra.
    rewrite clip_box_upwards_from_top by lra.
    reflexivity.
  - rewrite intersect_polygon_unfold. cbn [mirror hole ring_muon].
    rewrite (segment_upwards _ _ _ sin_0 cos_0).
    cbn [intersection convex_kernel].
    unfold square. rewrite !convex_intersection_box by lra.
    rewrite clip_box_upwards by lra.
    rewrite clip_box_upwards_from_top by lra.
    cbn [coords LineString bind try_except].
    rewrite length_vertical by lra. f_equal. lra.
Qed.






End IntersectProperties.

(** ** muon_integrator.py: plot_pos *)

Section ProfileLemmas.
Import Shapely Numpy Scipy MuonIntegrator.

Lemma setitem_middle (pre post : list R) (x v : R) :
  setitem (pre ++ x :: post) (List.length pre) v = Ok (pre ++ v :: post).
Proof.
  induction pre as [|a pre IH]; cbn [app List.length setitem]; [reflexivity|].
  rewrite IH. reflexivity.
Qed.

(** The loop stores the chord lengths in the order of the angles. *)
Lemma fill_loop_mapM (f : R -> result R) (ang pre : list R) :
  fill_loop f ang (List.length pre) (pre ++ repeat 0 (List.length ang)) =
  (ys <- mapM f ang ;; Ok (pre ++ ys)).
Proof.
  revert pre. induction ang as [|a tl IH]; intros pre; cbn [fill_loop mapM List.length repeat bind].
  - reflexivity.
  - destruct (f a) as [v|e]; cbn [bind]; [|reflexivity].
    rewrite setitem_middle. cbn [bind].
    replace (pre ++ v :: repeat 0 (List.length tl))
      with ((pre ++ [v]) ++ repeat 0 (List.length tl)) by now rewrite <- app_assoc.
    replace (S (List.length pre)) with (List.length (pre ++ [v]))
      by (rewrite length_app; cbn [List.length]; lia).
    rewrite IH. destruct (mapM f tl) as [ys|e]; cbn [bind]; [|reflexivity].
    now rewrite <- app_assoc.
Qed.

Lemma linspace_length (start stop : R) (num : Z) (l : list R) :
  linspace start stop num = Ok l -> List.length l = Z.to_nat num.
Proof.
  unfold linspace. destruct (Z.ltb num 0); [discriminate|].
  destruct (Z.to_nat num) as [|[|n]]; intros H; inversion H; subst; cbn [List.length].
  - reflexivity.
  - reflexivity.
  - rewrite length_app, length_map, length_seq. cbn [List.length]. lia.
Qed.

Lemma linspace_nonneg (start stop : R) (num : Z) (l : list R) :
  linspace start stop num = Ok l -> (0 <= num)%Z.
Proof.
  unfold linspace. destruct (Z.ltb_spec num 0); [discriminate | intros _; assumption].
Qed.

Lemma linspace_nth (start stop : R) (n i : nat) (l : list R) :
  linspace start stop (Z.of_nat (S (S n))) = Ok l ->
  (i < S (S n))%nat ->
  nth i l 0 = INR i * ((stop - start) / INR (S n)) + start.
Proof.
  rewrite linspace_two_or_more. intros H Hi.
  assert (Hl : l = map (fun i => INR i * ((stop - start) / INR (S n)) + start)
                       (seq 0 (S n)) ++ [stop]) by congruence.
  rewrite Hl. clear H Hl.
  destruct (Nat.eq_dec i (S n)) as [-> | Hne].
  - rewrite app_nth2 by (rewrite length_map, length_seq; lia).
    rewrite length_map, length_seq, Nat.sub_diag. cbn [nth].
    field. apply not_0_INR. lia.
  - rewrite app_nth1 by (rewrite length_map, length_seq; lia).
    rewrite (nth_indep _ 0 ((fun k => INR k * ((stop - start) / INR (S n)) + start) 0%nat))
      by (rewrite length_map, length_seq; lia).
    rewrite (map_nth (fun k => INR k * ((stop - start) / INR (S n)) + start)).
    rewrite seq_nth by lia. reflexivity.
Qed.

Lemma correlate1d_length (input weights out : list R) :
  correlate1d input weights = Ok out -> List.length out = List.length input.
Proof.
  unfold correlate1d. destruct weights; [discriminate|].
  intros H. inversion H. now rewrite length_map, length_seq.
Qed.

Lemma ones_nonempty (k : nat) : (0 < k)%nat -> ones k <> [].
Proof. destruct k; [lia | discriminate]. Qed.

Section WithKernel.
Context {K : Kernel}.

(** [plot_pos] without the loop: the angles, the raw chord lengths, the
    filter, the division. *)
Lemma plot_pos_unfold (self : MuonLineIntegrate) (impact_x impact_y radius : R) :
  plot_pos self impact_x impact_y radius =
  (ang <- linspace 0 (2 * PI) (bins_of self radius) ;;
   raw <- mapM (intersect_polygon self impact_x impact_y) ang ;;
   l <- correlate1d raw (ones (oversample_bins self)) ;;
   Ok (ang, map (fun v => v / INR (oversample_bins self)) l)).
Proof.
  unfold plot_pos.
  destruct (linspace 0 (2 * PI) (bins_of self radius)) as [ang|e] eqn:Hl;
    cbn [bind]; [|reflexivity].
  pose proof (linspace_length _ _ _ _ Hl) as Hlen.
  pose proof (linspace_nonneg _ _ _ _ Hl) as Hpos.
  unfold zeros. destruct (Z.ltb_spec (bins_of self radius) 0) as [H|_]; [lia|].
  cbn [bind]. rewrite <- Hlen.
  rewrite (fill_loop_mapM _ ang []). cbn [app].
  destruct (mapM (intersect_polygon self impact_x impact_y) ang); reflexivity.
Qed.

Lemma plot_pos_lengths (self : MuonLineIntegrate) (impact_x impact_y radius : R)
      (ang l : list R) :
  plot_pos self impact_x impact_y radius = Ok (ang, l) ->
  List.length ang = Z.to_nat (bins_of self radius) /\
  List.length l = Z.to_nat (bins_of self radius).
Proof.
  rewrite plot_pos_unfold.
  destruct (linspace 0 (2 * PI) (bins_of self radius)) as [ang'|e] eqn:Hl;
    cbn [bind]; [|discriminate].
  destruct (mapM (intersect_polygon self impact_x impact_y) ang') as [raw|e] eqn:Hm;
    cbn [bind]; [|discriminate].
  destruct (correlate1d raw (ones (oversample_bins self))) as [out|e] eqn:Hc;
    cbn [bind]; [|discriminate].
  intros H. inversion H; subst.
  rewrite length_map, (correlate1d_length _ _ _ Hc), (mapM_length _ _ _ Hm).
  split; apply (linspace_length _ _ _ _ Hl).
Qed.

Lemma bins_of_floor (self : MuonLineIntegrate) (radius : R) :
  0 < radius -> 0 < pixel_width self ->
  bins_of self radius =
  (Zfloor (2 * PI * radius / pixel_width self) * Z.of_nat (oversample_bins self))%Z.
Proof.
  intros Hr Hw. unfold bins_of, py_int.
  destruct (Rle_dec 0 (2 * PI * radius / pixel_width self)) as [_ | H]; [reflexivity|].
  exfalso. apply H. pose proof PI_RGT_0.
  apply Rmult_le_pos; [nra | left; now apply Rinv_0_lt_compat].
Qed.

End WithKernel.
End ProfileLemmas.

Section ProfileProperties.
Import Shapely Numpy Scipy MuonIntegrator.

Lemma correlate1d_ok (input weights : list R) :
  weights <> [] ->
  correlate1d input weights =
  Ok (map (fun i => dot weights
                      (skipn i (extend_wrap input (List.length weights / 2)
                                  (List.length weights - List.length weights / 2 - 1))))
          (seq 0 (List.length input))).
Proof. destruct weights; [congruence | reflexivity]. Qed.


Lemma PI_bounds : 3 < PI <= 4.
Proof. split; [pose proof PI2_3_2; lra | apply PI_4]. Qed.


Lemma coarse_bins : bins_of coarse_muon (1 / 5) = 1%Z.
Proof.
  rewrite bins_of_floor by (cbn; lra). cbn [pixel_width oversample_bins coarse_muon].
  rewrite (Zfloor_eq 1); [reflexivity|]. pose proof PI_bounds. lra.
Qed.

Lemma coarse_plot_pos :
  plot_pos coarse_muon 0 0 (1 / 5) = Ok ([0], [(1 * 1 + 0) / INR 1]).
Proof.
  rewrite plot_pos_unfold, coarse_bins.
  change (linspace 0 (2 * PI) 1) with (Ok (A := list R) [0]). cbn [bind mapM].
  unfold coarse_muon. rewrite intersect_square_upwards by (apply sin_0 || apply cos_0).
  reflexivity.
Qed.


Lemma broadcast2_same_length (f : R -> R -> R) (a b : list R) :
  List.length a = List.length b ->
  broadcast2 f a b = Ok (map (fun xy => f (fst xy) (snd xy)) (combine a b)).
Proof. intros H. unfold broadcast2. now rewrite H, Nat.eqb_refl. Qed.

Lemma combine_map2 {A B C D : Type} (f : A -> C) (g : B -> D) (a : list A) (b : list B) :
  combine (map f a) (map g b) = map (fun xy => (f (fst xy), g (snd xy))) (combine a b).
Proof.
  revert b. induction a as [|x a IH]; intros [|y b]; cbn [map combine fst snd];
    try reflexivity.
  now rewrite IH.
Qed.

Lemma combine_map_same {A C D : Type} (f : A -> C) (g : A -> D) (l : list A) :
  combine (map f l) (map g l) = map (fun x => (f x, g x)) l.
Proof. induction l as [|x l IH]; cbn [map combine]; [reflexivity | now rewrite IH]. Qed.

(** C5.  For pixel arrays of one length and a profile that [plot_pos]
    delivers, the prediction for the pixel [(x, y)] is the profile
    interpolated at [arctan2(x - centre_x, y - centre_y) + pi] times
    [exp(-((radial_dist - radius) / width)^2) / sqrt(2 pi width^2)]. *)
Theorem image_prediction_formula {K : Kernel} (self : MuonLineIntegrate)
        (impact_x impact_y centre_x centre_y radius width : R)
        (pixel_x pixel_y ang_prof profile : list R) :
  List.length pixel_x = List.length pixel_y ->
  plot_pos self impact_x impact_y radius = Ok (ang_prof, profile) ->
  ang_prof <> [] ->
  pos_to_angle centre_x centre_y pixel_x pixel_y =
    Ok (map (fun xy => arctan2 (fst xy - centre_x) (snd xy - centre_y))
            (combine pixel_x pixel_y)) /\
  image_prediction self impact_x impact_y centre_x centre_y radius width
                   pixel_x pixel_y =
  Ok (map (fun xy =>
             interp1 (arctan2 (fst xy - centre_x) (snd xy - centre_y) + PI)
                     ang_prof profile
             * (exp (- ((sqrt ((fst xy - centre_x) ^ 2 + (snd xy - centre_y) ^ 2)
                         - radius) / width) ^ 2)
                / sqrt (2 * PI * width ^ 2)))
          (combine pixel_x pixel_y)).
Proof.
  intros Hlen Hp Hne.
  assert (Hang : pos_to_angle centre_x centre_y pixel_x pixel_y =
            Ok (map (fun xy => arctan2 (fst xy - centre_x) (snd xy - centre_y))
                    (combine pixel_x pixel_y))).
  { unfold pos_to_angle. rewrite broadcast2_same_length by now rewrite !length_map.
    rewrite combine_map2, map_map. reflexivity. }
  split; [exact Hang|].
  unfold image_prediction. rewrite Hang, Hp. cbn [bind fst snd].
  destruct (plot_pos_lengths _ _ _ _ _ _ Hp) as [Ha Hl].
  unfold interp. destruct ang_prof as [|a0 tl] eqn:Eprof; [congruence|].
  rewrite <- Eprof in *. rewrite Ha, Hl, Nat.eqb_refl. cbn [bind].
  rewrite broadcast2_same_length by now rewrite !length_map.
  cbn [bind]. rewrite combine_map2. rewrite !map_map.
  rewrite broadcast2_same_length by now rewrite !length_map.
  rewrite combine_map_same. rewrite !map_map. cbn [bind]. rewrite map_map. f_equal.
  apply map_ext. intros [x y]. cbn [fst snd].
  replace (PI * 2 * width ^ 2) with (2 * PI * width ^ 2) by ring.
  unfold Rdiv. ring.
Qed.

Lemma image_prediction_formula_witness :
  List.length [1] = List.length [0] /\
  plot_pos coarse_muon 0 0 (1 / 5) = Ok ([0], [(1 * 1 + 0) / INR 1]) /\
  [0] <> @nil R /\
  image_prediction coarse_muon 0 0 0 0 (1 / 5) 1 [1] [0] =
  Ok [interp1 (arctan2 (1 - 0) (0 - 0) + PI) [0] [(1 * 1 + 0) / INR 1]
      * (exp (- ((sqrt ((1 - 0) ^ 2 + (0 - 0) ^ 2) - 1 / 5) / 1) ^ 2)
         / sqrt (2 * PI * 1 ^ 2))].
Proof.
  split; [reflexivity|]. split; [exact coarse_plot_pos|]. split; [discriminate|].
  apply (image_prediction_formula coarse_muon 0 0 0 0 (1 / 5) 1 [1] [0]
           [0] [(1 * 1 + 0) / INR 1] eq_refl coarse_plot_pos).
  discriminate.
Defined.

End ProfileProperties.

(** ** The circular moving average *)

Section MovingAverage.
Import Shapely Numpy Scipy MuonIntegrator.

Lemma rsum_S (f : nat -> R) (n : nat) :
  rsum f (S n) = f 0%nat + rsum (fun j => f (S j)) n.
Proof.
  unfold rsum. cbn [seq map fold_right]. rewrite <- seq_shift, map_map. reflexivity.
Qed.

Lemma rsum_ext (f g : nat -> R) (n : nat) :
  (forall j, (j < n)%nat -> f j = g j) -> rsum f n = rsum g n.
Proof.
  intros H. unfold rsum. f_equal. apply map_ext_in. intros j Hj.
  apply in_seq in Hj. apply H. lia.
Qed.

Lemma rsum_zero (f : nat -> R) (n : nat) :
  (forall j, f j = 0) -> rsum f n = 0.
Proof.
  revert f. induction n as [|n IH]; intros f H; [reflexivity|].
  rewrite rsum_S, H, IH; [lra | intros j; apply H].
Qed.

Lemma dot_ones (k : nat) (xs : list R) :
  dot (ones k) xs = rsum (fun j => nth j xs 0) k.
Proof.
  revert xs. induction k as [|k IH]; intros xs.
  - reflexivity.
  - rewrite rsum_S. unfold ones. cbn [repeat dot]. destruct xs as [|x xs'].
    + rewrite rsum_zero by reflexivity. cbn [nth]. lra.
    + cbn [nth]. fold (ones k). rewrite IH. lra.
Qed.

Lemma nth_skipn_add {A : Type} (i j : nat) (l : list A) (d : A) :
  nth j (skipn i l) d = nth (i + j) l d.
Proof.
  revert l. induction i as [|i IH]; intros l; [reflexivity|].
  destruct l as [|x l]; cbn [skipn Nat.add nth]; [now destruct j | apply IH].
Qed.

Lemma skipn_cons_nth {A : Type} (c : nat) (l : list A) (d : A) :
  (c < List.length l)%nat -> skipn c l = nth c l d :: skipn (S c) l.
Proof.
  revert l. induction c as [|c IH]; intros [|x l] H; cbn [List.length] in H; try lia.
  - reflexivity.
  - cbn [skipn nth]. rewrite (IH l) by lia. reflexivity.
Qed.

Lemma cycle_take_length (n : nat) (cur full : list R) :
  full <> [] -> List.length (cycle_take n cur full) = n.
Proof.
  intros Hf. revert cur. induction n as [|n IH]; intros cur; [reflexivity|].
  cbn [cycle_take]. destruct cur as [|x tl].
  - destruct full as [|x tl]; [congruence|]. cbn [List.length]. now rewrite IH.
  - cbn [List.length]. now rewrite IH.
Qed.

Lemma cycle_take_nth (full : list R) (n m c : nat) :
  full <> [] -> (c <= List.length full)%nat -> (m < n)%nat ->
  nth m (cycle_take n (skipn c full) full) 0 =
  nth ((c + m) mod List.length full) full 0.
Proof.
  intros Hf. revert m c. induction n as [|n IH]; intros m c Hc Hm; [lia|].
  assert (HN : (0 < List.length full)%nat) by (destruct full; [congruence | cbn; lia]).
  destruct (Nat.eq_dec c (List.length full)) as [-> | Hne].
  - rewrite skipn_all. cbn [cycle_take]. destruct full as [|x tl] eqn:E; [congruence|].
    rewrite <- E in *. destruct m as [|m].
    + cbn [nth]. rewrite Nat.add_0_r, Nat.Div0.mod_same. now rewrite E.
    + cbn [nth]. replace tl with (skipn 1 full) by now rewrite E.
      rewrite IH by lia.
      replace (List.length full + S m)%nat with (1 + m + 1 * List.length full)%nat by lia.
      now rewrite Nat.Div0.mod_add.
  - rewrite (skipn_cons_nth c full 0) by lia. cbn [cycle_take]. destruct m as [|m].
    + cbn [nth]. rewrite Nat.add_0_r, Nat.mod_small by lia. reflexivity.
    + cbn [nth]. rewrite IH by lia. f_equal. f_equal. lia.
Qed.

Lemma cycle_take_nth0 (full : list R) (n m : nat) :
  full <> [] -> (m < n)%nat ->
  nth m (cycle_take n full full) 0 = nth (m mod List.length full) full 0.
Proof.
  intros Hf Hm. apply (cycle_take_nth full n m 0 Hf); [lia | exact Hm].
Qed.

Lemma wrap_index_lt (N : nat) (z : Z) : (0 < N)%nat -> (wrap_index N z < N)%nat.
Proof.
  intros H. unfold wrap_index.
  pose proof (Z.mod_pos_bound z (Z.of_nat N)). lia.
Qed.

Lemma wrap_index_unique (N : nat) (z q : Z) (r : nat) :
  (r < N)%nat -> z = (Z.of_nat N * q + Z.of_nat r)%Z -> wrap_index N z = r.
Proof.
  intros Hr Hz. unfold wrap_index.
  rewrite <- (Z.mod_unique z (Z.of_nat N) q (Z.of_nat r)); [lia | lia | exact Hz].
Qed.

Lemma extend_wrap_nth (raw : list R) (size1 size2 m : nat) :
  raw <> [] -> (m < size1 + List.length raw + size2)%nat ->
  nth m (extend_wrap raw size1 size2) 0 =
  nth (wrap_index (List.length raw) (Z.of_nat m - Z.of_nat size1)) raw 0.
Proof.
  intros Hne Hm. set (N := List.length raw).
  assert (HN : (0 < N)%nat) by (unfold N; destruct raw; [congruence | cbn; lia]).
  assert (Hrev : rev raw <> []).
  { intros H. apply (f_equal (@List.length R)) in H. rewrite length_rev in H.
    cbn in H. fold N in H. lia. }
  unfold extend_wrap.
  destruct (Nat.lt_ge_cases m size1) as [Hlt | Hge].
  - rewrite app_nth1 by (rewrite length_rev, cycle_take_length; assumption).
    rewrite rev_nth by (rewrite cycle_take_length; assumption).
    rewrite cycle_take_length by assumption.
    rewrite (cycle_take_nth0 (rev raw) size1 (size1 - S m) Hrev) by lia.
    rewrite length_rev. fold N.
    pose proof (Nat.mod_upper_bound (size1 - S m) N ltac:(lia)) as Hub.
    rewrite rev_nth by (fold N; lia). fold N. f_equal.
    symmetry. apply (wrap_index_unique N _ (- Z.of_nat ((size1 - S m) / N) - 1)); [lia|].
    pose proof (Nat.div_mod_eq (size1 - S m) N) as Hdm. nia.
  - rewrite app_nth2 by (rewrite length_rev, cycle_take_length; assumption).
    rewrite length_rev, cycle_take_length by assumption.
    destruct (Nat.lt_ge_cases (m - size1) N) as [Hin | Hout].
    + rewrite app_nth1 by (fold N; assumption). f_equal.
      symmetry. apply (wrap_index_unique N _ 0); lia.
    + rewrite app_nth2 by (fold N; assumption). fold N.
      rewrite (cycle_take_nth0 raw size2 (m - size1 - N) Hne) by (fold N; lia).
      fold N.
      pose proof (Nat.mod_upper_bound (m - size1 - N) N ltac:(lia)) as Hub.
      f_equal. symmetry.
      apply (wrap_index_unique N _ (Z.of_nat ((m - size1 - N) / N) + 1)); [lia|].
      pose proof (Nat.div_mod_eq (m - size1 - N) N) as Hdm. nia.
Qed.

(** The filter with a window of ones and [mode="wrap"] is the circular
    moving sum. *)
Lemma correlate1d_ones_wrap (raw : list R) (k : nat) :
  (0 < k)%nat -> raw <> [] ->
  correlate1d raw (ones k) =
  Ok (map (circular_moving_sum k raw) (seq 0 (List.length raw))).
Proof.
  intros Hk Hne. rewrite correlate1d_ok by now apply ones_nonempty.
  f_equal. apply map_ext_in. intros i Hi. apply in_seq in Hi.
  unfold ones at 2 3 4. rewrite repeat_length.
  rewrite dot_ones. unfold circular_moving_sum. apply rsum_ext. intros j Hj.
  rewrite nth_skipn_add.
  assert (Hhalf : (k / 2 <= k - 1)%nat).
  { pose proof (Nat.div_mod_eq k 2). lia. }
  rewrite extend_wrap_nth by (try assumption; lia).
  f_equal. f_equal. lia.
Qed.

End MovingAverage.

Section SmoothingProperties.
Import Shapely Numpy Scipy MuonIntegrator.

(** C4.  The lengths that [plot_pos] returns are the circular moving
    average, of window [oversample_bins], of the chord lengths that
    [intersect_polygon] gives at the angles of the profile. *)
Theorem plot_pos_circular_average {K : Kernel} (self : MuonLineIntegrate)
        (impact_x impact_y radius : R) (ang raw : list R) :
  (0 < bins_of self radius)%Z ->
  linspace 0 (2 * PI) (bins_of self radius) = Ok ang ->
  mapM (intersect_polygon self impact_x impact_y) ang = Ok raw ->
  exists l,
    plot_pos self impact_x impact_y radius = Ok (ang, l) /\
    List.length l = List.length raw /\
    correlate1d raw (ones (oversample_bins self)) =
      Ok (map (circular_moving_sum (oversample_bins self) raw)
              (seq 0 (List.length raw))) /\
    forall i, (i < List.length raw)%nat ->
              nth i l 0 = circular_moving_average (oversample_bins self) raw i.
Proof.
  intros Hb Hl Hm.
  assert (Hk : (0 < oversample_bins self)%nat).
  { unfold bins_of in Hb. destruct (oversample_bins self); [|lia].
    rewrite Z.mul_0_r in Hb. lia. }
  assert (Hne : raw <> []).
  { intros ->. apply mapM_length in Hm. apply linspace_length in Hl.
    cbn [List.length] in Hm. lia. }
  pose proof (correlate1d_ones_wrap raw (oversample_bins self) Hk Hne) as Hc.
  exists (map (fun v => v / INR (oversample_bins self))
              (map (circular_moving_sum (oversample_bins self) raw)
                   (seq 0 (List.length raw)))).
  split; [|split; [|split]].
  - rewrite plot_pos_unfold, Hl. cbn [bind]. rewrite Hm. cbn [bind].
    rewrite Hc. reflexivity.
  - now rewrite !length_map, length_seq.
  - exact Hc.
  - intros i Hi. rewrite map_map.
    rewrite (nth_indep _ 0 ((fun j => circular_moving_sum (oversample_bins self) raw j
                                      / INR (oversample_bins self)) 0%nat))
      by (rewrite length_map, length_seq; exact Hi).
    rewrite (map_nth (fun j => circular_moving_sum (oversample_bins self) raw j
                               / INR (oversample_bins self))).
    rewrite seq_nth by exact Hi. reflexivity.
Qed.

Lemma pair_bins : bins_of pair_muon (1 / 5) = 2%Z.
Proof.
  rewrite bins_of_floor by (cbn; lra). cbn [pixel_width oversample_bins pair_muon].
  rewrite (Zfloor_eq 1); [reflexivity|]. pose proof PI_bounds. lra.
Qed.

Lemma pair_raw :
  mapM (intersect_polygon pair_muon 0 0)
       [INR 0 * ((2 * PI - 0) / INR 1) + 0; 2 * PI] = Ok [1; 1].
Proof.
  cbn [mapM]. unfold pair_muon.
  rewrite intersect_square_upwards.
  2:{ replace (INR 0 * ((2 * PI - 0) / INR 1) + 0) with 0 by (cbn [INR]; lra). apply sin_0. }
  2:{ replace (INR 0 * ((2 * PI - 0) / INR 1) + 0) with 0 by (cbn [INR]; lra). apply cos_0. }
  rewrite intersect_square_upwards by (apply sin_2PI || apply cos_2PI).
  reflexivity.
Qed.

Lemma plot_pos_circular_average_witness :
  (0 < bins_of pair_muon (1 / 5))%Z /\
  linspace 0 (2 * PI) (bins_of pair_muon (1 / 5)) =
    Ok [INR 0 * ((2 * PI - 0) / INR 1) + 0; 2 * PI] /\
  mapM (intersect_polygon pair_muon 0 0)
       [INR 0 * ((2 * PI - 0) / INR 1) + 0; 2 * PI] = Ok [1; 1] /\
  exists l,
    plot_pos pair_muon 0 0 (1 / 5) =
      Ok ([INR 0 * ((2 * PI - 0) / INR 1) + 0; 2 * PI], l) /\
    List.length l = 2%nat /\
    correlate1d [1; 1] (ones 2) =
      Ok (map (circular_moving_sum 2 [1; 1]) (seq 0 2)) /\
    forall i, (i < 2)%nat -> nth i l 0 = circular_moving_average 2 [1; 1] i.
Proof.
  assert (Hb : (0 < bins_of pair_muon (1 / 5))%Z) by (rewrite pair_bins; lia).
  assert (Hl : linspace 0 (2 * PI) (bins_of pair_muon (1 / 5)) =
               Ok [INR 0 * ((2 * PI - 0) / INR 1) + 0; 2 * PI])
    by (rewrite pair_bins; reflexivity).
  split; [exact Hb|]. split; [exact Hl|]. split; [exact pair_raw|].
  exact (plot_pos_circular_average pair_muon 0 0 (1 / 5) _ _ Hb Hl pair_raw).
Defined.

End SmoothingProperties.

(** ** More on the line integral *)

Section MoreIntersect.
Import Shapely Numpy MuonIntegrator.

Lemma dist_nonneg (p q : point) : 0 <= dist p q.
Proof. unfold dist. apply sqrt_pos. Qed.

Lemma length_nonneg (ls : linestring) : 0 <= length ls.
Proof.
  induction ls as [|p tl IH]; cbn [length]; [lra|].
  destruct tl as [|q tl']; [lra|].
  pose proof (dist_nonneg p q). lra.
Qed.

Lemma geom_length_nonneg (g : geometry) : 0 <= geom_length g.
Proof.
  destruct g as [|p|cs|parts]; cbn [geom_length]; try lra.
  - apply length_nonneg.
  - induction parts as [|cs tl IH]; cbn [fold_right]; [lra|].
    pose proof (length_nonneg cs). lra.
Qed.

(** The end point that [dir_to_line] returns lies at the distance
    [|length|] from the centre; the line of [intersect_polygon] is 100
    long. *)
Theorem dir_to_line_distance (centre_x centre_y angle len : R) :
  dist (centre_x, centre_y) (dir_to_line centre_x centre_y angle len) = Rabs len /\
  length (segment centre_x centre_y angle) = 100.
Proof.
  assert (H : forall l, dist (centre_x, centre_y) (dir_to_line centre_x centre_y angle l)
                        = Rabs l).
  { intros l. unfold dist, dir_to_line. cbn [fst snd].
    replace ((centre_x + l * sin angle - centre_x) * (centre_x + l * sin angle - centre_x) +
             (centre_y + l * cos angle - centre_y) * (centre_y + l * cos angle - centre_y))
      with (Rsqr l * (Rsqr (sin angle) + Rsqr (cos angle))) by (unfold Rsqr; ring).
    rewrite sin2_cos2, Rmult_1_r. apply sqrt_Rsqr_abs. }
  split; [apply H|].
  unfold segment. cbn [length]. rewrite H, Rabs_pos_eq; lra.
Qed.

Lemma hole_term_total (g : geometry) :
  exists h, 0 <= h /\
    try_except
      (intersection_hole <- coords g ;;
       hole_intersect <- LineString intersection_hole ;;
       Ok (length hole_intersect))
      (Ok 0) = Ok h.
Proof.
  destruct g as [|p|cs|parts]; cbn [coords bind try_except].
  - exists 0. split; [lra | reflexivity].
  - exists 0. split; [lra | reflexivity].
  - destruct cs as [|p [|q tl]].
    + exists 0. split; [lra | reflexivity].
    + exists 0. split; [lra | reflexivity].
    + exists (length (p :: q :: tl)). split; [apply length_nonneg | reflexivity].
  - exists 0. split; [lra | reflexivity].
Qed.

(** [intersect_polygon] raises exactly when the coordinate sequence of the
    intersection with the mirror has a single point, and then it raises the
    [ValueError] of [LineString]; nothing that happens with the hole makes it
    raise. *)
Theorem intersect_polygon_raises_iff {K : Kernel} (self : MuonLineIntegrate)
        (impact_x impact_y angle : R) (e : exn) :
  intersect_polygon self impact_x impact_y angle = Raise e <->
  (exists p, coords (intersection (mirror self) (segment impact_x impact_y angle))
             = Ok [p]) /\
  e = ValueError "LineStrings must have at least 2 coordinate tuples".
Proof.
  rewrite intersect_polygon_unfold.
  destruct (hole_term_total (intersection (hole self) (segment impact_x impact_y angle)))
    as [h [_ Hh]].
  destruct (coords (intersection (mirror self) (segment impact_x impact_y angle)))
    as [cs|e'].
  - destruct cs as [|p [|q tl]]; cbn [LineString bind].
    + rewrite Hh. cbn [bind]. split; [discriminate|]. intros [[p Hp] _]. discriminate.
    + split.
      * intros H. split; [now exists p | congruence].
      * intros [_ ->]. reflexivity.
    + rewrite Hh. cbn [bind]. split; [discriminate|]. intros [[p' Hp] _]. discriminate.
  - split; [discriminate|]. intros [[p Hp] _]. discriminate.
Qed.

(** What [intersect_polygon] returns is never more than the arc length of
    the line inside the mirror: the hole only takes away. *)
Theorem intersect_polygon_le_mirror {K : Kernel} (self : MuonLineIntegrate)
        (impact_x impact_y angle v : R) :
  intersect_polygon self impact_x impact_y angle = Ok v ->
  v <= geom_length (intersection (mirror self) (segment impact_x impact_y angle)).
Proof.
  rewrite intersect_polygon_unfold.
  destruct (hole_term_total (intersection (hole self) (segment impact_x impact_y angle)))
    as [h [Hpos Hh]].
  pose proof (geom_length_nonneg
                (intersection (mirror self) (segment impact_x impact_y angle))) as Hg.
  destruct (intersection (mirror self) (segment impact_x impact_y angle))
    as [|p|cs|parts]; cbn [coords geom_length] in *.
  - intros H. inversion H. lra.
  - cbn [LineString bind]. discriminate.
  - destruct cs as [|p [|q tl]]; cbn [LineString bind]; try discriminate;
      rewrite Hh; cbn [bind]; intros H.
    + assert (Hv : length [] - h = v) by congruence. cbn [length] in Hv. lra.
    + assert (Hv : length (p :: q :: tl) - h = v) by congruence. lra.
  - intros H. inversion H. lra.
Qed.

Lemma intersect_polygon_le_mirror_witness :
  intersect_polygon square_muon 0 0 0 = Ok 1 /\
  1 <= geom_length (intersection (mirror square_muon) (segment 0 0 0)).
Proof.
  assert (H : intersect_polygon square_muon 0 0 0 = Ok 1)
    by (apply intersect_square_upwards; [apply sin_0 | apply cos_0]).
  split; [exact H|].
  exact (intersect_polygon_le_mirror square_muon 0 0 0 1 H).
Defined.

End MoreIntersect.

(** ** The two angle conventions *)

Section AngleRoundTrip.
Import Shapely Numpy MuonIntegrator.

Lemma arctan2_of_signs (y x : R) :
  (0 < x -> arctan2 y x = atan (y / x)) /\
  (x < 0 -> 0 <= y -> arctan2 y x = atan (y / x) + PI) /\
  (x < 0 -> y < 0 -> arctan2 y x = atan (y / x) - PI) /\
  (x = 0 -> 0 < y -> arctan2 y x = PI / 2) /\
  (x = 0 -> y < 0 -> arctan2 y x = - (PI / 2)).
Proof.
  unfold arctan2. repeat split; intros;
    repeat match goal with
           | |- context [Rlt_dec ?a ?b] => destruct (Rlt_dec a b); try lra
           | |- context [Rle_dec ?a ?b] => destruct (Rle_dec a b); try lra
           end.
Qed.

Lemma arctan2_sin_cos (len a : R) :
  0 < len -> - PI < a <= PI -> arctan2 (len * sin a) (len * cos a) = a.
Proof.
  intros Hl [Hlo Hhi]. pose proof PI_RGT_0 as Hpi.
  destruct (arctan2_of_signs (len * sin a) (len * cos a)) as [P1 [P2 [P3 [P4 P5]]]].
  destruct (Rtotal_order a (- (PI / 2))) as [Hlt | [Heq | Hgt]].
  - (* third quadrant *)
    set (b := a + PI).
    assert (Hb : 0 < b < PI / 2) by (unfold b; lra).
    assert (Hs : sin a = - sin b) by (unfold b; rewrite neg_sin; ring).
    assert (Hc : cos a = - cos b) by (unfold b; rewrite neg_cos; ring).
    assert (Hcb : 0 < cos b) by (apply cos_gt_0; lra).
    assert (Hsb : 0 < sin b) by (apply sin_gt_0; lra).
    rewrite P3 by (rewrite ?Hs, ?Hc; nra).
    replace (len * sin a / (len * cos a)) with (tan b)
      by (rewrite Hs, Hc; unfold tan; field; split; lra).
    rewrite atan_tan by lra. unfold b. ring.
  - subst a. apply P5; rewrite ?sin_neg, ?cos_neg, ?sin_PI2, ?cos_PI2; lra.
  - destruct (Rtotal_order a (PI / 2)) as [Hlt | [Heq | Hgt']].
    + assert (Hc : 0 < cos a) by (apply cos_gt_0; lra).
      rewrite P1 by nra.
      replace (len * sin a / (len * cos a)) with (tan a)
        by (unfold tan; field; split; lra).
      apply atan_tan. lra.
    + subst a. apply P4; rewrite ?sin_PI2, ?cos_PI2; lra.
    + set (b := a - PI).
      assert (Hb : - (PI / 2) < b <= 0) by (unfold b; lra).
      assert (Hs : sin a = - sin b).
      { replace a with (b + PI) by (unfold b; ring). apply neg_sin. }
      assert (Hc : cos a = - cos b).
      { replace a with (b + PI) by (unfold b; ring). apply neg_cos. }
      assert (Hcb : 0 < cos b) by (apply cos_gt_0; lra).
      assert (Hsa : 0 <= sin a) by (apply sin_ge_0; lra).
      rewrite P2 by (rewrite ?Hc; nra).
      replace (len * sin a / (len * cos a)) with (tan b)
        by (rewrite Hs, Hc; unfold tan; field; split; lra).
      rewrite atan_tan by lra. unfold b. ring.
Qed.

(** A pixel that lies in the direction [angle] from the centre, in the
    convention of [dir_to_line], has the angle [angle] for [pos_to_angle]:
    the two functions use one convention. *)
Theorem pos_to_angle_dir_to_line (centre_x centre_y angle len : R) :
  0 < len -> - PI < angle <= PI ->
  pos_to_angle centre_x centre_y
               [fst (dir_to_line centre_x centre_y angle len)]
               [snd (dir_to_line centre_x centre_y angle len)] = Ok [angle].
Proof.
  intros Hl Ha. unfold pos_to_angle, dir_to_line. cbn [fst snd map broadcast2 List.length
    Nat.eqb combine].
  replace (centre_x + len * sin angle - centre_x) with (len * sin angle) by ring.
  replace (centre_y + len * cos angle - centre_y) with (len * cos angle) by ring.
  now rewrite (arctan2_sin_cos len angle Hl Ha).
Qed.

Lemma pos_to_angle_dir_to_line_witness :
  0 < 100 /\ - PI < 0 <= PI /\
  pos_to_angle 0 0 [fst (dir_to_line 0 0 0 100)] [snd (dir_to_line 0 0 0 100)] = Ok [0].
Proof.
  pose proof PI_RGT_0.
  assert (H1 : 0 < 100) by lra. assert (H2 : - PI < 0 <= PI) by lra.
  split; [exact H1|]. split; [exact H2|].
  exact (pos_to_angle_dir_to_line 0 0 0 100 H1 H2).
Defined.

End AngleRoundTrip.

(** ** More on the profile *)

Section MoreProfile.
Import Shapely Numpy Scipy MuonIntegrator.

(** *** Sums *)

Lemma rsum_plus (f g : nat -> R) (n : nat) :
  rsum (fun i => f i + g i) n = rsum f n + rsum g n.
Proof.
  revert f g. induction n as [|n IH]; intros f g.
  - unfold rsum. cbn. lra.
  - rewrite !rsum_S, IH. lra.
Qed.

Lemma rsum_const (c : R) (n : nat) : rsum (fun _ => c) n = INR n * c.
Proof.
  induction n as [|n IH].
  - unfold rsum. cbn. lra.
  - rewrite rsum_S, IH, S_INR. lra.
Qed.

Lemma rsum_scale (f : nat -> R) (c : R) (n : nat) :
  rsum (fun i => f i / c) n = rsum f n / c.
Proof.
  revert f. induction n as [|n IH]; intros f.
  - unfold rsum. cbn. lra.
  - rewrite !rsum_S, IH. lra.
Qed.

Lemma rsum_swap (f : nat -> nat -> R) (n m : nat) :
  rsum (fun i => rsum (fun j => f i j) m) n =
  rsum (fun j => rsum (fun i => f i j) n) m.
Proof.
  revert f. induction n as [|n IH]; intros f.
  - unfold rsum at 1. cbn [seq map fold_right].
    symmetry. apply rsum_zero. intros j. reflexivity.
  - rewrite rsum_S, IH, <- rsum_plus. apply rsum_ext. intros j _.
    now rewrite rsum_S.
Qed.

Lemma rsum_split (f : nat -> R) (a b : nat) :
  rsum f (a + b) = rsum f a + rsum (fun i => f (a + i)%nat) b.
Proof.
  revert f. induction a as [|a IH]; intros f.
  - cbn [Nat.add]. unfold rsum at 2. cbn [seq map fold_right].
    rewrite Rplus_0_l. reflexivity.
  - cbn [Nat.add]. rewrite !rsum_S, IH. cbn [Nat.add]. rewrite Rplus_assoc. reflexivity.
Qed.

Lemma rsum_bounds (f : nat -> R) (lo hi : R) (n : nat) :
  (forall j, (j < n)%nat -> lo <= f j <= hi) ->
  INR n * lo <= rsum f n <= INR n * hi.
Proof.
  revert f. induction n as [|n IH]; intros f H.
  - unfold rsum. cbn. lra.
  - rewrite rsum_S, S_INR.
    pose proof (H 0%nat ltac:(lia)).
    pose proof (IH (fun j => f (S j)) ltac:(intros j Hj; apply H; lia)). lra.
Qed.

Lemma fold_right_rsum (l : list R) :
  fold_right Rplus 0 l = rsum (fun i => nth i l 0) (List.length l).
Proof.
  induction l as [|x l IH]; [reflexivity|].
  cbn [fold_right List.length]. rewrite rsum_S. cbn [nth]. now rewrite IH.
Qed.

Lemma wrap_index_shift (N i : nat) (c : Z) :
  (0 < N)%nat -> (i < N)%nat ->
  wrap_index N (Z.of_nat i + c) =
  if (i + wrap_index N c <? N)%nat then (i + wrap_index N c)%nat
  else (i + wrap_index N c - N)%nat.
Proof.
  intros HN Hi. pose proof (wrap_index_lt N c HN) as Hr.
  assert (Hc : c = (Z.of_nat N * (c / Z.of_nat N) + Z.of_nat (wrap_index N c))%Z).
  { unfold wrap_index. pose proof (Z.mod_pos_bound c (Z.of_nat N) ltac:(lia)).
    rewrite Z2Nat.id by lia. apply Z.div_mod. lia. }
  destruct (Nat.ltb_spec (i + wrap_index N c) N) as [Hlt | Hge].
  - apply (wrap_index_unique N _ (c / Z.of_nat N)); lia.
  - apply (wrap_index_unique N _ (c / Z.of_nat N + 1)); lia.
Qed.

(** Going once around the ring from any place collects every place once. *)
Lemma rsum_rotate (raw : list R) (c : Z) :
  raw <> [] ->
  rsum (fun i => nth (wrap_index (List.length raw) (Z.of_nat i + c)) raw 0)
       (List.length raw) =
  rsum (fun i => nth i raw 0) (List.length raw).
Proof.
  intros Hne. set (N := List.length raw).
  assert (HN : (0 < N)%nat) by (unfold N; destruct raw; [congruence | cbn; lia]).
  pose proof (wrap_index_lt N c HN) as Hr. set (r := wrap_index N c) in *.
  rewrite (rsum_ext _ (fun i => nth (if (i + r <? N)%nat then (i + r)%nat
                                     else (i + r - N)%nat) raw 0) N).
  2:{ intros i Hi. now rewrite (wrap_index_shift N i c HN Hi). }
  set (h := fun i => nth (if (i + r <? N)%nat then (i + r)%nat
                           else (i + r - N)%nat) raw 0).
  set (g := fun i => nth i raw 0).
  assert (E1 : rsum h N = rsum h (N - r) + rsum (fun i => h (N - r + i)%nat) r).
  { rewrite <- rsum_split. f_equal. lia. }
  assert (E2 : rsum g N = rsum g r + rsum (fun i => g (r + i)%nat) (N - r)).
  { rewrite <- rsum_split. f_equal. lia. }
  rewrite E1, E2, Rplus_comm. f_equal.
  - apply rsum_ext. intros i Hi. unfold h, g.
    destruct (Nat.ltb_spec (N - r + i + r) N) as [Hlt | Hge]; [lia|].
    f_equal. lia.
  - apply rsum_ext. intros i Hi. unfold h, g.
    destruct (Nat.ltb_spec (i + r) N) as [Hlt | Hge]; [|lia].
    f_equal. lia.
Qed.

Lemma circular_moving_sum_total (k : nat) (raw : list R) :
  raw <> [] ->
  rsum (circular_moving_sum k raw) (List.length raw) =
  INR k * fold_right Rplus 0 raw.
Proof.
  intros Hne. unfold circular_moving_sum. rewrite rsum_swap.
  rewrite (rsum_ext _ (fun _ => fold_right Rplus 0 raw) k).
  - apply rsum_const.
  - intros j _. rewrite fold_right_rsum, <- (rsum_rotate raw (Z.of_nat j - Z.of_nat (k / 2)) Hne).
    apply rsum_ext. intros i _. f_equal. f_equal. lia.
Qed.

Lemma correlate1d_ones_any (raw : list R) (k : nat) :
  (0 < k)%nat ->
  correlate1d raw (ones k) =
  Ok (map (circular_moving_sum k raw) (seq 0 (List.length raw))).
Proof.
  intros Hk. destruct raw as [|x raw'] eqn:Hr.
  - rewrite correlate1d_ok by now apply ones_nonempty. reflexivity.
  - rewrite <- Hr. apply correlate1d_ones_wrap; [exact Hk | rewrite Hr; discriminate].
Qed.

Section WithKernel.
Context {K : Kernel}.

(** The smoothed lengths as a function of the raw chord lengths. *)
Lemma plot_pos_smoothed (self : MuonLineIntegrate) (impact_x impact_y radius : R)
      (ang l raw : list R) :
  plot_pos self impact_x impact_y radius = Ok (ang, l) ->
  mapM (intersect_polygon self impact_x impact_y) ang = Ok raw ->
  (0 < oversample_bins self)%nat /\
  l = map (fun i => circular_moving_sum (oversample_bins self) raw i
                    / INR (oversample_bins self))
          (seq 0 (List.length raw)).
Proof.
  rewrite plot_pos_unfold.
  destruct (linspace 0 (2 * PI) (bins_of self radius)) as [ang'|] eqn:Hl;
    cbn [bind]; [|discriminate].
  destruct (mapM (intersect_polygon self impact_x impact_y) ang') as [raw'|] eqn:Hm;
    cbn [bind]; [|discriminate].
  destruct (Nat.eq_dec (oversample_bins self) 0) as [Hk0 | Hk0].
  { rewrite Hk0. discriminate. }
  assert (Hkpos : (0 < oversample_bins self)%nat) by lia.
  rewrite (correlate1d_ones_any raw' (oversample_bins self) Hkpos).
  cbn [bind]. rewrite map_map. intros H Hm'.
  assert (Ha : ang' = ang) by congruence. subst ang'.
  assert (Hr : raw' = raw) by congruence. subst raw'.
  split; [exact Hkpos|]. congruence.
Qed.

(** The smoothing keeps bounds: when every raw chord length lies between
    [lo] and [hi], so does every length of the profile.  In particular a
    profile of non-negative chords is non-negative and a constant one stays
    constant. *)
Theorem plot_pos_smoothing_bounds (self : MuonLineIntegrate)
        (impact_x impact_y radius lo hi : R) (ang l raw : list R) :
  plot_pos self impact_x impact_y radius = Ok (ang, l) ->
  mapM (intersect_polygon self impact_x impact_y) ang = Ok raw ->
  (forall v, In v raw -> lo <= v <= hi) ->
  forall v, In v l -> lo <= v <= hi.
Proof.
  intros Hp Hm Hraw v Hv.
  destruct (plot_pos_smoothed _ _ _ _ _ _ _ Hp Hm) as [Hk Hl].
  rewrite Hl in Hv. apply in_map_iff in Hv. destruct Hv as [i [<- Hi]].
  apply in_seq in Hi.
  assert (Hne : raw <> []) by (intros ->; cbn in Hi; lia).
  assert (HN : (0 < List.length raw)%nat) by lia.
  assert (HK : 0 < INR (oversample_bins self)) by (apply lt_0_INR; exact Hk).
  unfold circular_moving_sum.
  pose proof (rsum_bounds
    (fun j => nth (wrap_index (List.length raw)
                     (Z.of_nat i + Z.of_nat j - Z.of_nat (oversample_bins self / 2)))
                  raw 0) lo hi (oversample_bins self)) as Hb.
  destruct Hb as [Hlo Hhi].
  { intros j _. apply Hraw. apply nth_In. now apply wrap_index_lt. }
  split.
  - apply Rmult_le_reg_r with (INR (oversample_bins self)); [exact HK|].
    unfold Rdiv. rewrite Rmult_assoc, Rinv_l by lra. lra.
  - apply Rmult_le_reg_r with (INR (oversample_bins self)); [exact HK|].
    unfold Rdiv. rewrite Rmult_assoc, Rinv_l by lra. lra.
Qed.

(** The smoothing keeps the total: the lengths of the profile add up to
    what the raw chord lengths add up to. *)
Theorem plot_pos_smoothing_total (self : MuonLineIntegrate)
        (impact_x impact_y radius : R) (ang l raw : list R) :
  plot_pos self impact_x impact_y radius = Ok (ang, l) ->
  mapM (intersect_polygon self impact_x impact_y) ang = Ok raw ->
  fold_right Rplus 0 l = fold_right Rplus 0 raw.
Proof.
  intros Hp Hm.
  destruct (plot_pos_smoothed _ _ _ _ _ _ _ Hp Hm) as [Hk Hl].
  assert (HK : 0 < INR (oversample_bins self)) by (apply lt_0_INR; exact Hk).
  rewrite Hl. destruct raw as [|x raw'] eqn:Hr; [reflexivity|].
  rewrite <- Hr in *.
  change (fold_right Rplus 0
            (map (fun i => circular_moving_sum (oversample_bins self) raw i
                           / INR (oversample_bins self))
                 (seq 0 (List.length raw))))
    with (rsum (fun i => circular_moving_sum (oversample_bins self) raw i
                         / INR (oversample_bins self)) (List.length raw)).
  rewrite rsum_scale, circular_moving_sum_total by (rewrite Hr; discriminate).
  field. lra.
Qed.

End WithKernel.

Lemma pair_plot_pos :
  plot_pos pair_muon 0 0 (1 / 5) =
  Ok ([INR 0 * ((2 * PI - 0) / INR 1) + 0; 2 * PI],
      map (fun i => circular_moving_sum 2 [1; 1] i / INR 2) (seq 0 2)).
Proof.
  rewrite plot_pos_unfold, pair_bins.
  change (linspace 0 (2 * PI) 2)
    with (Ok (A := list R) [INR 0 * ((2 * PI - 0) / INR 1) + 0; 2 * PI]).
  cbn [bind]. rewrite pair_raw. cbn [bind oversample_bins pair_muon].
  rewrite (correlate1d_ones_wrap [1; 1] 2) by (lia || discriminate).
  cbn [bind]. now rewrite map_map.
Qed.

Lemma plot_pos_smoothing_bounds_witness :
  plot_pos pair_muon 0 0 (1 / 5) =
    Ok ([INR 0 * ((2 * PI - 0) / INR 1) + 0; 2 * PI],
        map (fun i => circular_moving_sum 2 [1; 1] i / INR 2) (seq 0 2)) /\
  mapM (intersect_polygon pair_muon 0 0)
       [INR 0 * ((2 * PI - 0) / INR 1) + 0; 2 * PI] = Ok [1; 1] /\
  (forall v, In v [1; 1] -> 1 <= v <= 1) /\
  forall v, In v (map (fun i => circular_moving_sum 2 [1; 1] i / INR 2) (seq 0 2)) ->
            1 <= v <= 1.
Proof.
  assert (Hraw : forall v, In v [1; 1] -> 1 <= v <= 1).
  { intros v [<- | [<- | []]]; lra. }
  split; [exact pair_plot_pos|]. split; [exact pair_raw|]. split; [exact Hraw|].
  exact (plot_pos_smoothing_bounds pair_muon 0 0 (1 / 5) 1 1 _ _ _
           pair_plot_pos pair_raw Hraw).
Defined.

Lemma plot_pos_smoothing_total_witness :
  plot_pos pair_muon 0 0 (1 / 5) =
    Ok ([INR 0 * ((2 * PI - 0) / INR 1) + 0; 2 * PI],
        map (fun i => circular_moving_sum 2 [1; 1] i / INR 2) (seq 0 2)) /\
  mapM (intersect_polygon pair_muon 0 0)
       [INR 0 * ((2 * PI - 0) / INR 1) + 0; 2 * PI] = Ok [1; 1] /\
  fold_right Rplus 0 (map (fun i => circular_moving_sum 2 [1; 1] i / INR 2) (seq 0 2)) =
  fold_right Rplus 0 [1; 1].
Proof.
  split; [exact pair_plot_pos|]. split; [exact pair_raw|].
  exact (plot_pos_smoothing_total pair_muon 0 0 (1 / 5) _ _ _ pair_plot_pos pair_raw).
Defined.

End MoreProfile.

(** ** Errors of plot_pos, values of image_prediction *)

Section MorePrediction.
Import Shapely Numpy Scipy MuonIntegrator.

Lemma interp_scan_lower (lo x : R) (xp fp : list R) :
  (forall v, In v fp -> lo <= v) ->
  List.length xp = List.length fp -> xp <> [] -> hd 0 xp <= x ->
  lo <= interp_scan x xp fp.
Proof.
  revert fp. induction xp as [|x0 xtl IH]; intros fp Hfp Hlen Hne Hx; [congruence|].
  destruct fp as [|f0 ftl]; [discriminate|].
  cbn [interp_scan]. cbn [hd] in Hx.
  destruct xtl as [|x1 xtl']; destruct ftl as [|f1 ftl']; try discriminate.
  - apply Hfp. now left.
  - destruct (Rlt_dec x x1) as [Hlt | Hge].
    + assert (H0 : lo <= f0) by (apply Hfp; now left).
      assert (H1 : lo <= f1) by (apply Hfp; right; now left).
      set (t := (x - x0) / (x1 - x0)).
      assert (Ht : 0 <= t < 1).
      { unfold t. split.
        - apply Rmult_le_pos; [lra|]. left. apply Rinv_0_lt_compat. lra.
        - apply Rmult_lt_reg_r with (x1 - x0); [lra|].
          unfold Rdiv. rewrite Rmult_assoc, Rinv_l by lra. lra. }
      replace ((f1 - f0) / (x1 - x0) * (x - x0) + f0) with (f0 + t * (f1 - f0))
        by (unfold t; field; lra).
      nra.
    + apply IH.
      * intros v Hv. apply Hfp. now right.
      * cbn [List.length] in *. lia.
      * discriminate.
      * cbn [hd]. lra.
Qed.

Lemma interp1_lower (lo x : R) (xp fp : list R) :
  (forall v, In v fp -> lo <= v) ->
  List.length xp = List.length fp -> xp <> [] ->
  lo <= interp1 x xp fp.
Proof.
  intros Hfp Hlen Hne. unfold interp1.
  assert (Hfne : fp <> []).
  { intros ->. destruct xp; [congruence | discriminate]. }
  destruct (Rlt_dec x (hd 0 xp)) as [H1 | H1].
  - apply Hfp. destruct fp; [congruence | now left].
  - destruct (Rlt_dec (last xp 0) x) as [H2 | H2].
    + apply Hfp. destruct (exists_last Hfne) as [pre [z ->]].
      rewrite last_last. apply in_or_app. right. now left.
    + apply interp_scan_lower; try assumption. lra.
Qed.

Section WithKernel.
Context {K : Kernel}.

(** For a positive [pixel_width] and at least one bin per pixel, a radius
    so negative that the circumference is a pixel or more makes the bin count
    negative, and [plot_pos] raises the [ValueError] of [np.linspace]. *)
Theorem plot_pos_negative_radius (self : MuonLineIntegrate)
        (impact_x impact_y radius : R) :
  0 < pixel_width self -> (0 < oversample_bins self)%nat ->
  2 * PI * radius <= - pixel_width self ->
  (bins_of self radius < 0)%Z /\
  exists msg, plot_pos self impact_x impact_y radius = Raise (ValueError msg).
Proof.
  intros Hw Hk Hr.
  assert (Hx : 2 * PI * radius / pixel_width self <= -1).
  { apply Rmult_le_reg_r with (pixel_width self); [exact Hw|].
    unfold Rdiv. rewrite Rmult_assoc, Rinv_l by lra. lra. }
  assert (Hb : (bins_of self radius < 0)%Z).
  { unfold bins_of, py_int.
    destruct (Rle_dec 0 (2 * PI * radius / pixel_width self)) as [H | _]; [lra|].
    pose proof (Zceil_bound (2 * PI * radius / pixel_width self)) as [Hc _].
    assert (Hneg : (Zceil (2 * PI * radius / pixel_width self) < 0)%Z).
    { apply lt_IZR. lra. }
    nia. }
  split; [exact Hb|].
  unfold plot_pos, linspace.
  destruct (Z.ltb_spec (bins_of self radius) 0) as [_ | H]; [|lia].
  cbn [bind]. eexists. reflexivity.
Qed.

(** With [oversample_bins = 0] there is no filter window: [plot_pos]
    raises the [RuntimeError] of [correlate1d] for every impact point and
    radius. *)
Theorem plot_pos_no_oversampling (self : MuonLineIntegrate)
        (impact_x impact_y radius : R) :
  pixel_width self <> 0 -> oversample_bins self = 0%nat ->
  plot_pos self impact_x impact_y radius =
  Raise (RuntimeError "no filter weights given").
Proof.
  intros _ Hk. rewrite plot_pos_unfold. unfold bins_of. rewrite Hk.
  rewrite Z.mul_0_r. reflexivity.
Qed.

(** What [image_prediction] returns, when it returns, for pixel arrays of
    one length. *)
Lemma image_prediction_inv (self : MuonLineIntegrate)
      (impact_x impact_y centre_x centre_y radius width : R)
      (pixel_x pixel_y pred : list R) :
  List.length pixel_x = List.length pixel_y ->
  image_prediction self impact_x impact_y centre_x centre_y radius width
                   pixel_x pixel_y = Ok pred ->
  exists ang_prof profile,
    plot_pos self impact_x impact_y radius = Ok (ang_prof, profile) /\
    ang_prof <> [] /\ List.length ang_prof = List.length profile /\
    pred = map (fun xy =>
                  interp1 (arctan2 (fst xy - centre_x) (snd xy - centre_y) + PI)
                          ang_prof profile
                  * exp (- ((sqrt ((fst xy - centre_x) ^ 2 + (snd xy - centre_y) ^ 2)
                             - radius) / width) ^ 2)
                  / sqrt (PI * 2 * width ^ 2))
               (combine pixel_x pixel_y).
Proof.
  intros Hlen. unfold image_prediction, pos_to_angle.
  rewrite broadcast2_same_length by now rewrite !length_map.
  cbn [bind].
  destruct (plot_pos self impact_x impact_y radius) as [[ang_prof profile]|e] eqn:Hp;
    cbn [bind fst snd]; [|discriminate].
  destruct (plot_pos_lengths _ _ _ _ _ _ Hp) as [Ha Hl].
  unfold interp. destruct ang_prof as [|a0 tl] eqn:Eprof; [discriminate|].
  rewrite <- Eprof in *. rewrite Ha, Hl, Nat.eqb_refl. cbn [bind].
  rewrite broadcast2_same_length by now rewrite !length_map.
  cbn [bind]. rewrite !combine_map2, !map_map.
  rewrite broadcast2_same_length by now rewrite !length_map.
  rewrite combine_map_same, !map_map. cbn [bind]. rewrite map_map.
  intros H. exists ang_prof, profile.
  split; [reflexivity|]. split; [rewrite Eprof; discriminate|].
  split; [congruence|].
  injection H as <-. apply map_ext. intros [x y]. reflexivity.
Qed.

(** [image_prediction] returns one value per pixel. *)
Theorem image_prediction_length (self : MuonLineIntegrate)
        (impact_x impact_y centre_x centre_y radius width : R)
        (pixel_x pixel_y pred : list R) :
  List.length pixel_x = List.length pixel_y ->
  image_prediction self impact_x impact_y centre_x centre_y radius width
                   pixel_x pixel_y = Ok pred ->
  List.length pred = List.length pixel_x.
Proof.
  intros Hlen H.
  destruct (image_prediction_inv _ _ _ _ _ _ _ _ _ _ Hlen H) as [a [p [_ [_ [_ ->]]]]].
  rewrite length_map, length_combine, <- Hlen. apply Nat.min_id.
Qed.

(** When no length of the profile is negative, no predicted value is
    negative. *)
Theorem image_prediction_nonneg (self : MuonLineIntegrate)
        (impact_x impact_y centre_x centre_y radius width : R)
        (pixel_x pixel_y pred ang_prof profile : list R) :
  List.length pixel_x = List.length pixel_y ->
  width <> 0 ->
  image_prediction self impact_x impact_y centre_x centre_y radius width
                   pixel_x pixel_y = Ok pred ->
  plot_pos self impact_x impact_y radius = Ok (ang_prof, profile) ->
  (forall v, In v profile -> 0 <= v) ->
  forall v, In v pred -> 0 <= v.
Proof.
  intros Hlen Hw H Hp Hprof v Hv.
  destruct (image_prediction_inv _ _ _ _ _ _ _ _ _ _ Hlen H)
    as [a [p [Hp' [Hne [Hl ->]]]]].
  assert (Ea : a = ang_prof) by congruence.
  assert (Ep : p = profile) by congruence. subst a p.
  apply in_map_iff in Hv. destruct Hv as [[x y] [<- _]]. cbn [fst snd].
  assert (Hi : 0 <= interp1 (arctan2 (x - centre_x) (y - centre_y) + PI) ang_prof profile)
    by (apply interp1_lower; assumption).
  assert (He : 0 < exp (- ((sqrt ((x - centre_x) ^ 2 + (y - centre_y) ^ 2) - radius)
                           / width) ^ 2)) by apply exp_pos.
  assert (Hs : 0 < sqrt (PI * 2 * width ^ 2)).
  { apply sqrt_lt_R0. pose proof PI_RGT_0.
    replace (width ^ 2) with (width * width) by ring.
    assert (0 < width * width) by (destruct (Rdichotomy _ _ Hw); nra). nra. }
  apply Rmult_le_pos; [nra|]. left. now apply Rinv_0_lt_compat.
Qed.

End WithKernel.

Lemma plot_pos_negative_radius_witness :
  0 < pixel_width square_muon /\ (0 < oversample_bins square_muon)%nat /\
  2 * PI * (-1) <= - pixel_width square_muon /\
  (bins_of square_muon (-1) < 0)%Z /\
  exists msg, plot_pos square_muon 0 0 (-1) = Raise (ValueError msg).
Proof.
  assert (H1 : 0 < pixel_width square_muon) by (cbn; lra).
  assert (H2 : (0 < oversample_bins square_muon)%nat) by (cbn; lia).
  assert (H3 : 2 * PI * (-1) <= - pixel_width square_muon).
  { cbn [pixel_width square_muon]. pose proof PI_bounds. lra. }
  split; [exact H1|]. split; [exact H2|]. split; [exact H3|].
  exact (plot_pos_negative_radius square_muon 0 0 (-1) H1 H2 H3).
Defined.

(** A mirror without any bin per pixel. *)
Lemma plot_pos_no_oversampling_witness :
  pixel_width (mkMuonLineIntegrate (mkPolygon square) (mkPolygon []) 1 0) <> 0 /\
  oversample_bins (mkMuonLineIntegrate (mkPolygon square) (mkPolygon []) 1 0) = 0%nat /\
  plot_pos (mkMuonLineIntegrate (mkPolygon square) (mkPolygon []) 1 0) 0 0 1 =
  Raise (RuntimeError "no filter weights given").
Proof.
  assert (H1 : pixel_width (mkMuonLineIntegrate (mkPolygon square) (mkPolygon []) 1 0) <> 0)
    by (cbn; lra).
  split; [exact H1|]. split; [reflexivity|].
  exact (plot_pos_no_oversampling _ 0 0 1 H1 eq_refl).
Defined.

Lemma coarse_image :
  image_prediction coarse_muon 0 0 0 0 (1 / 5) 1 [1] [0] =
  Ok [interp1 (arctan2 (1 - 0) (0 - 0) + PI) [0] [(1 * 1 + 0) / INR 1]
      * exp (- ((sqrt ((1 - 0) ^ 2 + (0 - 0) ^ 2) - 1 / 5) / 1) ^ 2)
      / sqrt (PI * 2 * 1 ^ 2)].
Proof.
  unfold image_prediction. rewrite coarse_plot_pos. reflexivity.
Qed.

Lemma image_prediction_length_witness :
  List.length [1] = List.length [0] /\
  List.length
    [interp1 (arctan2 (1 - 0) (0 - 0) + PI) [0] [(1 * 1 + 0) / INR 1]
     * exp (- ((sqrt ((1 - 0) ^ 2 + (0 - 0) ^ 2) - 1 / 5) / 1) ^ 2)
     / sqrt (PI * 2 * 1 ^ 2)] = List.length [1].
Proof.
  split; [reflexivity|].
  exact (image_prediction_length coarse_muon 0 0 0 0 (1 / 5) 1 [1] [0] _
           eq_refl coarse_image).
Defined.

Lemma image_prediction_nonneg_witness :
  List.length [1] = List.length [0] /\ 1 <> 0 /\
  (forall v, In v [(1 * 1 + 0) / INR 1] -> 0 <= v) /\
  forall v,
    In v [interp1 (arctan2 (1 - 0) (0 - 0) + PI) [0] [(1 * 1 + 0) / INR 1]
          * exp (- ((sqrt ((1 - 0) ^ 2 + (0 - 0) ^ 2) - 1 / 5) / 1) ^ 2)
          / sqrt (PI * 2 * 1 ^ 2)] -> 0 <= v.
Proof.
  assert (Hw : 1 <> 0) by lra.
  assert (Hprof : forall v, In v [(1 * 1 + 0) / INR 1] -> 0 <= v).
  { intros v [<- | []]. cbn [INR]. lra. }
  split; [reflexivity|]. split; [exact Hw|]. split; [exact Hprof|].
  exact (image_prediction_nonneg coarse_muon 0 0 0 0 (1 / 5) 1 [1] [0] _ _ _
           eq_refl Hw coarse_image coarse_plot_pos Hprof).
Defined.

(** *** The angles that image_prediction looks up *)







End MorePrediction.

(** ** More on the neighbour lists *)

Section MoreNeighbors.
Import Numpy Scipy Camera.

Lemma mapM_nth {A B : Type} (f : A -> result B) (xs : list A) (ys : list B) :
  mapM f xs = Ok ys ->
  forall i dx dy, (i < List.length xs)%nat -> f (nth i xs dx) = Ok (nth i ys dy).
Proof.
  revert ys. induction xs as [|x tl IH]; intros ys H i dx dy Hi;
    cbn [List.length] in Hi; [lia|].
  cbn [mapM] in H. destruct (f x) as [y|] eqn:Hx; cbn [bind] in H; [|discriminate].
  destruct (mapM f tl) as [ys'|] eqn:Hm; cbn [bind] in H; [|discriminate].
  injection H as <-. destruct i as [|i]; cbn [nth]; [exact Hx|].
  apply (IH ys' eq_refl). lia.
Qed.

Lemma list_remove_NoDup (l l' : list nat) (x : nat) :
  NoDup l -> list_remove l x = Ok l' -> NoDup l'.
Proof.
  revert l'. induction l as [|y tl IH]; intros l' Hnd; cbn [list_remove]; [discriminate|].
  inversion Hnd as [|? ? Hny Hnd']; subst.
  destruct (Nat.eqb y x); intros H.
  - now inversion H; subst.
  - destruct (list_remove tl x) as [tl'|] eqn:E; cbn [bind] in H; [|discriminate].
    inversion H; subst. constructor; [|now apply IH].
    intros Hin. apply Hny.
    clear - E Hin. revert tl' E Hin. induction tl as [|z tl IH]; intros tl' E Hin;
      cbn [list_remove] in E; [discriminate|].
    destruct (Nat.eqb z x).
    + inversion E; subst. now right.
    + destruct (list_remove tl x) as [t|] eqn:E'; cbn [bind] in E; [|discriminate].
      inversion E; subst. destruct Hin as [-> | Hin]; [now left | right; eauto].
Qed.

Lemma distance_nonneg (p q : R * R) : 0 <= distance p q.
Proof. unfold distance. apply sqrt_pos. Qed.

(** The contract of [find_neighbor_pixels]: for [rad >= 0] the list of the
    point [i] holds, once each, the indices of the other points at distance
    at most [rad]. *)
Theorem find_neighbor_pixels_within_radius (pix_x pix_y : list R) (rad : R) :
  0 <= rad -> List.length pix_x = List.length pix_y ->
  exists nbrs,
    find_neighbor_pixels pix_x pix_y rad = Ok nbrs /\
    List.length nbrs = List.length pix_x /\
    forall i, (i < List.length pix_x)%nat ->
      NoDup (nth i nbrs []) /\
      forall j,
        In j (nth i nbrs []) <->
        (j < List.length pix_x)%nat /\ j <> i /\
        distance (nth j (combine pix_x pix_y) (0, 0))
                 (nth i (combine pix_x pix_y) (0, 0)) <= rad.
Proof.
  intros Hrad Hlen.
  destruct (find_neighbor_pixels_spec pix_x pix_y rad Hrad Hlen) as [nbrs [Hf [Hl Hs]]].
  exists nbrs. split; [exact Hf|]. split; [exact Hl|].
  intros i Hi. split; [|intros j; now apply Hs].
  unfold find_neighbor_pixels in Hf. rewrite (array_T_ok _ _ Hlen) in Hf.
  cbn [bind] in Hf.
  set (points := combine pix_x pix_y) in *.
  set (cmb := combine (map (fun p => query_ball_point points p rad) points)
                      (seq 0 (List.length pix_x))) in *.
  assert (Hlc : List.length cmb = List.length nbrs) by (symmetry; apply (mapM_length _ _ _ Hf)).
  assert (Hi' : (i < List.length cmb)%nat) by lia.
  pose proof (mapM_nth _ _ _ Hf i ([], 0%nat) [] Hi') as Hn.
  apply (list_remove_NoDup (fst (nth i cmb ([], 0%nat))) _ _) in Hn; [exact Hn|].
  unfold cmb.
  assert (Hlm : List.length (map (fun p => query_ball_point points p rad) points) =
                List.length (seq 0 (List.length pix_x))).
  { rewrite length_map, length_seq. unfold points.
    rewrite length_combine, <- Hlen. apply Nat.min_id. }
  rewrite (combine_nth _ _ _ _ _ Hlm). cbn [fst].
  destruct (nth_in_or_default i (map (fun p => query_ball_point points p rad) points) [])
    as [Hin | ->]; [|constructor].
  apply in_map_iff in Hin. destruct Hin as [p [<- _]]. apply query_ball_point_NoDup.
Qed.

Lemma find_neighbor_pixels_within_radius_witness :
  0 <= 1 /\ List.length [0; 1; 3] = List.length [0; 0; 0] /\
  exists nbrs,
    find_neighbor_pixels [0; 1; 3] [0; 0; 0] 1 = Ok nbrs /\
    List.length nbrs = 3%nat.
Proof.
  assert (H1 : 0 <= 1) by lra.
  split; [exact H1|]. split; [reflexivity|].
  destruct (find_neighbor_pixels_within_radius [0; 1; 3] [0; 0; 0] 1 H1 eq_refl)
    as [nbrs [Hf [Hl _]]].
  exists nbrs. split; [exact Hf | exact Hl].
Defined.

(** A larger radius only adds neighbours. *)
Theorem find_neighbor_pixels_monotone (pix_x pix_y : list R) (rad rad' : R)
        (nbrs nbrs' : list (list nat)) :
  0 <= rad -> rad <= rad' -> List.length pix_x = List.length pix_y ->
  find_neighbor_pixels pix_x pix_y rad = Ok nbrs ->
  find_neighbor_pixels pix_x pix_y rad' = Ok nbrs' ->
  forall i j, (i < List.length pix_x)%nat ->
              In j (nth i nbrs []) -> In j (nth i nbrs' []).
Proof.
  intros Hr Hrr Hlen Hf Hf' i j Hi Hin.
  destruct (find_neighbor_pixels_spec pix_x pix_y rad Hr Hlen) as [n1 [H1 [_ S1]]].
  destruct (find_neighbor_pixels_spec pix_x pix_y rad' ltac:(lra) Hlen) as [n2 [H2 [_ S2]]].
  assert (n1 = nbrs) by congruence. assert (n2 = nbrs') by congruence. subst n1 n2.
  apply (S2 i j Hi). apply (S1 i j Hi) in Hin.
  destruct Hin as [Hj [Hne Hd]]. repeat split; [assumption | assumption | lra].
Qed.

(** The call returns for a radius of either sign, and a negative radius
    acts as its absolute value: the tree compares squared distances with
    the squared radius, so every point lies in its own ball, the
    neighbours of the point [i] are the other points at distance at most
    [|rad|], and the call with [|rad|] finds the same neighbours. *)
Theorem find_neighbor_pixels_any_radius (pix_x pix_y : list R) (rad : R) :
  List.length pix_x = List.length pix_y ->
  exists nbrs nbrs',
    find_neighbor_pixels pix_x pix_y rad = Ok nbrs /\
    find_neighbor_pixels pix_x pix_y (Rabs rad) = Ok nbrs' /\
    List.length nbrs = List.length pix_x /\
    List.length nbrs' = List.length pix_x /\
    (forall i j, (i < List.length pix_x)%nat ->
       (In j (nth i nbrs []) <->
        (j < List.length pix_x)%nat /\ j <> i /\
        distance (nth j (combine pix_x pix_y) (0, 0))
                 (nth i (combine pix_x pix_y) (0, 0)) <= Rabs rad)) /\
    (forall i j, In j (nth i nbrs []) <-> In j (nth i nbrs' [])).
Proof.
  intros Hlen.
  destruct (find_neighbor_pixels_spec_abs pix_x pix_y rad Hlen) as [nbrs [Hf [Hl Hs]]].
  destruct (find_neighbor_pixels_spec pix_x pix_y (Rabs rad) (Rabs_pos rad) Hlen)
    as [nbrs' [Hf' [Hl' Hs']]].
  exists nbrs, nbrs'. split; [exact Hf|]. split; [exact Hf'|].
  split; [exact Hl|]. split; [exact Hl'|]. split; [exact Hs|].
  intros i j.
  destruct (Nat.lt_ge_cases i (List.length pix_x)) as [Hi | Hi].
  - rewrite (Hs i j Hi), (Hs' i j Hi). reflexivity.
  - rewrite !nth_overflow by lia. reflexivity.
Qed.

Lemma find_neighbor_pixels_any_radius_witness :
  List.length [0; 1] = List.length [0; 0] /\
  exists nbrs nbrs',
    find_neighbor_pixels [0; 1] [0; 0] (-1) = Ok nbrs /\
    find_neighbor_pixels [0; 1] [0; 0] (Rabs (-1)) = Ok nbrs' /\
    List.length nbrs = 2%nat /\
    forall i j, In j (nth i nbrs []) <-> In j (nth i nbrs' []).
Proof.
  split; [reflexivity|].
  destruct (find_neighbor_pixels_any_radius [0; 1] [0; 0] (-1) eq_refl)
    as [nbrs [nbrs' [Hf [Hf' [Hl [_ [_ Hs]]]]]]].
  exists nbrs, nbrs'. split; [exact Hf|]. split; [exact Hf'|].
  split; [exact Hl | exact Hs].
Defined.

End MoreNeighbors.

(** ** More on guess_camera_geometry *)

Section MoreGuess.
Import Numpy Scipy Camera.

Lemma find_neighbor_pixels_monotone_witness :
  0 <= 1 /\ 1 <= 2 /\ List.length [0; 1; 3] = List.length [0; 0; 0] /\
  exists nbrs nbrs',
    find_neighbor_pixels [0; 1; 3] [0; 0; 0] 1 = Ok nbrs /\
    find_neighbor_pixels [0; 1; 3] [0; 0; 0] 2 = Ok nbrs' /\
    forall i j, (i < 3)%nat -> In j (nth i nbrs []) -> In j (nth i nbrs' []).
Proof.
  assert (H1 : 0 <= 1) by lra. assert (H2 : 1 <= 2) by lra. assert (H3 : 0 <= 2) by lra.
  split; [exact H1|]. split; [exact H2|]. split; [reflexivity|].
  destruct (find_neighbor_pixels_spec [0; 1; 3] [0; 0; 0] 1 H1 eq_refl) as [n1 [E1 _]].
  destruct (find_neighbor_pixels_spec [0; 1; 3] [0; 0; 0] 2 H3 eq_refl) as [n2 [E2 _]].
  exists n1, n2. split; [exact E1|]. split; [exact E2|].
  exact (find_neighbor_pixels_monotone [0; 1; 3] [0; 0; 0] 1 2 n1 n2 H1 H2 eq_refl E1 E2).
Defined.

Lemma getitem_ok (q : Quantity) (i : nat) :
  (i < List.length (value q))%nat -> getitem q i = Ok (nth i (value q) 0).
Proof.
  intros H. unfold getitem. now rewrite (nth_error_nth' _ 0 H).
Qed.

Lemma getitem_out (q : Quantity) (i : nat) :
  (List.length (value q) <= i)%nat ->
  getitem q i = Raise (IndexError "index is out of bounds").
Proof.
  intros H. unfold getitem. apply nth_error_None in H. now rewrite H.
Qed.

(** With fewer than two pixels in one of the arrays, looking at the first
    two pixels raises [IndexError]. *)
Theorem guess_camera_geometry_too_few (pix_x pix_y : Quantity) :
  dim (Camera.unit pix_x) = 1%nat -> dim (Camera.unit pix_y) = 1%nat ->
  (List.length (value pix_x) < 2)%nat \/ (List.length (value pix_y) < 2)%nat ->
  guess_camera_geometry pix_x pix_y = Raise (IndexError "index is out of bounds").
Proof.
  intros Hx Hy Hlen. unfold guess_camera_geometry, check_length.
  rewrite Hx, Hy. cbn [Nat.eqb bind].
  destruct (Nat.lt_ge_cases (List.length (value pix_x)) 2) as [Hlt | Hge].
  - rewrite (getitem_out pix_x 1) by lia. reflexivity.
  - destruct Hlen as [Hlen | Hlen]; [lia|].
    rewrite (getitem_ok pix_x 1), (getitem_ok pix_x 0) by lia. cbn [bind].
    rewrite (getitem_out pix_y 1) by lia. reflexivity.
Qed.

Lemma guess_camera_geometry_too_few_witness :
  dim (Camera.unit (mkQuantity [0] metre)) = 1%nat /\
  dim (Camera.unit (mkQuantity [0] metre)) = 1%nat /\
  guess_camera_geometry (mkQuantity [0] metre) (mkQuantity [0] metre) =
  Raise (IndexError "index is out of bounds").
Proof.
  split; [reflexivity|]. split; [reflexivity|].
  apply (guess_camera_geometry_too_few (mkQuantity [0] metre) (mkQuantity [0] metre)
           eq_refl eq_refl).
  left. cbn. lia.
Defined.

Lemma guess_camera_geometry_eval (pix_x pix_y : Quantity) :
  dim (Camera.unit pix_x) = 1%nat -> dim (Camera.unit pix_y) = 1%nat ->
  (2 <= List.length (value pix_x))%nat -> (2 <= List.length (value pix_y))%nat ->
  guess_camera_geometry pix_x pix_y =
  (nbrs <- find_neighbor_pixels (value pix_x) (value pix_y)
             (nth 1 (value pix_x) 0 - nth 0 (value pix_x) 0 + 1 / 100) ;;
   Ok (mkCameraGeometry
         (CamName (fst (guess_camera_type (Z.of_nat (List.length (value pix_x))))))
         (seq 0 (List.length (value pix_x))) pix_x pix_y
         (mkQuantity (map (fun o => o * guessed_area pix_x pix_y)
                          (ones (List.length (value pix_x))))
                     (mkUnit (scale (Camera.unit pix_x) ^ 2) 2))
         nbrs (snd (guess_camera_type (Z.of_nat (List.length (value pix_x))))))).
Proof.
  intros Hx Hy Hlx Hly. unfold guess_camera_geometry, check_length, guessed_area.
  rewrite Hx, Hy. cbn [Nat.eqb bind].
  rewrite (getitem_ok pix_x 1), (getitem_ok pix_x 0),
          (getitem_ok pix_y 1), (getitem_ok pix_y 0) by lia.
  cbn [bind].
  destruct (guess_camera_type_pix_type (Z.of_nat (List.length (value pix_x))))
    as [Ht | Ht]; rewrite Ht; cbn [startswith String.prefix bind]; reflexivity.
Qed.

(** The neighbour radius is the difference of the first two x coordinates
    plus 0.01, and only its absolute value counts: for two or more pixels
    and arrays of one length the call returns in either order of the first
    two pixels, and the neighbours of a pixel are the other pixels within
    [|x1 - x0 + 0.01|] of it. *)
Theorem guess_camera_geometry_neighbors_radius (qx qy : Quantity) :
  dim (Camera.unit qx) = 1%nat -> dim (Camera.unit qy) = 1%nat ->
  (2 <= List.length (value qx))%nat ->
  List.length (value qx) = List.length (value qy) ->
  exists g,
    guess_camera_geometry qx qy = Ok g /\
    List.length (neighbors g) = List.length (value qx) /\
    forall i j, (i < List.length (value qx))%nat ->
      (In j (nth i (neighbors g) []) <->
       (j < List.length (value qx))%nat /\ j <> i /\
       distance (nth j (combine (value qx) (value qy)) (0, 0))
                (nth i (combine (value qx) (value qy)) (0, 0))
       <= Rabs (nth 1 (value qx) 0 - nth 0 (value qx) 0 + 1 / 100)).
Proof.
  intros Hx Hy Hlx Hlen.
  rewrite guess_camera_geometry_eval by (assumption || lia).
  destruct (find_neighbor_pixels_spec_abs (value qx) (value qy)
              (nth 1 (value qx) 0 - nth 0 (value qx) 0 + 1 / 100) Hlen)
    as [nbrs [Hf [Hl Hs]]].
  rewrite Hf. cbn [bind]. eexists. split; [reflexivity|].
  cbn [neighbors]. split; [exact Hl | exact Hs].
Qed.

Lemma guess_camera_geometry_neighbors_radius_witness :
  exists g,
    guess_camera_geometry (mkQuantity [1; 0] metre) (mkQuantity [0; 0] metre) = Ok g /\
    List.length (neighbors g) = 2%nat.
Proof.
  destruct (guess_camera_geometry_neighbors_radius (mkQuantity [1; 0] metre)
              (mkQuantity [0; 0] metre) eq_refl eq_refl ltac:(cbn; lia) eq_refl)
    as [g [Hg [Hl _]]].
  exists g. split; [exact Hg | exact Hl].
Defined.

(** For two or more pixels, arrays of one length and a radius that is not
    negative the call returns a geometry that keeps the two coordinate
    arrays, numbers the pixels from 0, has one area and one neighbour list
    per pixel, one and the same non-negative area for all pixels, and the
    pixel type hexagonal or rectangular. *)
Theorem guess_camera_geometry_result (qx qy : Quantity) :
  dim (Camera.unit qx) = 1%nat -> dim (Camera.unit qy) = 1%nat ->
  (2 <= List.length (value qx))%nat ->
  List.length (value qx) = List.length (value qy) ->
  0 <= nth 1 (value qx) 0 - nth 0 (value qx) 0 + 1 / 100 ->
  exists g,
    guess_camera_geometry qx qy = Ok g /\
    pix_x g = qx /\ pix_y g = qy /\
    pix_id g = seq 0 (List.length (value qx)) /\
    List.length (value (pix_area g)) = List.length (value qx) /\
    List.length (neighbors g) = List.length (value qx) /\
    (forall a, In a (value (pix_area g)) ->
               a = 1 * guessed_area qx qy /\ 0 <= a) /\
    (pix_type g = "hexagonal"%string \/ pix_type g = "rectangular"%string).
Proof.
  intros Hx Hy Hlx Hlen Hdx.
  rewrite guess_camera_geometry_eval by (assumption || lia).
  destruct (find_neighbor_pixels_spec _ _ _ Hdx Hlen) as [nbrs [Hf [Hl _]]].
  rewrite Hf. cbn [bind]. eexists. split; [reflexivity|].
  cbn [pix_x pix_y pix_id pix_area neighbors pix_type value].
  split; [reflexivity|]. split; [reflexivity|]. split; [reflexivity|].
  split; [unfold ones; now rewrite length_map, repeat_length|].
  split; [exact Hl|]. split; [|apply guess_camera_type_pix_type].
  intros a Ha. apply in_map_iff in Ha. destruct Ha as [o [<- Ho]].
  unfold ones in Ho. apply repeat_spec in Ho. subst o. split; [reflexivity|].
  rewrite Rmult_1_l. unfold guessed_area.
  destruct (startswith _ _).
  - apply Rmult_le_pos; [apply pow2_ge_0|].
    pose proof (sqrt_pos 3). lra.
  - apply pow2_ge_0.
Qed.

Lemma guess_camera_geometry_result_witness :
  0 <= nth 1 [0; 1] 0 - nth 0 [0; 1] 0 + 1 / 100 /\
  exists g,
    guess_camera_geometry (mkQuantity [0; 1] metre) (mkQuantity [0; 0] metre) = Ok g /\
    pix_id g = [0; 1]%nat /\
    List.length (neighbors g) = 2%nat.
Proof.
  assert (H : 0 <= nth 1 [0; 1] 0 - nth 0 [0; 1] 0 + 1 / 100) by (cbn [nth]; lra).
  split; [exact H|].
  destruct (guess_camera_geometry_result (mkQuantity [0; 1] metre)
              (mkQuantity [0; 0] metre) eq_refl eq_refl ltac:(cbn; lia) eq_refl H)
    as [g [Hg [_ [_ [Hid [_ [Hn _]]]]]]].
  exists g. split; [exact Hg|]. split; [exact Hid | exact Hn].
Defined.

(** The radius does not see the y coordinates: when the first two pixels
    have one x coordinate the radius is 0.01, and a camera whose pixels are
    all more than 0.01 apart gets empty neighbour lists. *)
Theorem guess_camera_geometry_stacked_first_pixels (qx qy : Quantity)
        (g : CameraGeometry) :
  dim (Camera.unit qx) = 1%nat -> dim (Camera.unit qy) = 1%nat ->
  (2 <= List.length (value qx))%nat ->
  List.length (value qx) = List.length (value qy) ->
  nth 1 (value qx) 0 = nth 0 (value qx) 0 ->
  (forall i j, (i < List.length (value qx))%nat ->
               (j < List.length (value qx))%nat -> i <> j ->
               1 / 100 < distance (nth j (combine (value qx) (value qy)) (0, 0))
                                  (nth i (combine (value qx) (value qy)) (0, 0))) ->
  guess_camera_geometry qx qy = Ok g ->
  forall i, (i < List.length (value qx))%nat -> nth i (neighbors g) [] = [].
Proof.
  intros Hx Hy Hlx Hlen Hdx Hfar Hg i Hi.
  rewrite guess_camera_geometry_eval in Hg by (assumption || lia).
  assert (Hr : 0 <= nth 1 (value qx) 0 - nth 0 (value qx) 0 + 1 / 100)
    by (rewrite Hdx; lra).
  destruct (find_neighbor_pixels_spec _ _ _ Hr Hlen) as [nbrs [Hf [_ Hs]]].
  rewrite Hf in Hg. cbn [bind] in Hg. injection Hg as <-. cbn [neighbors].
  destruct (nth i nbrs []) as [|j l] eqn:E; [reflexivity|].
  assert (Hin : In j (nth i nbrs [])) by (rewrite E; now left).
  apply (Hs i j Hi) in Hin. destruct Hin as [Hj [Hne Hd]].
  specialize (Hfar i j Hi Hj (not_eq_sym Hne)). rewrite Hdx in Hd. lra.
Qed.

Lemma stacked_pair_far :
  forall i j, (i < 2)%nat -> (j < 2)%nat -> i <> j ->
    1 / 100 < distance (nth j (combine [0; 0] [0; 1]) (0, 0))
                       (nth i (combine [0; 0] [0; 1]) (0, 0)).
Proof.
  assert (H1 : sqrt 1 = 1) by apply sqrt_1.
  intros [|[|i]] [|[|j]] Hi Hj Hne; try lia; cbn [combine nth]; unfold distance;
    cbn [fst snd].
  - replace ((0 - 0) ^ 2 + (1 - 0) ^ 2) with 1 by ring. lra.
  - replace ((0 - 0) ^ 2 + (0 - 1) ^ 2) with 1 by ring. lra.
Qed.

Lemma guess_camera_geometry_stacked_first_pixels_witness :
  exists g,
    guess_camera_geometry (mkQuantity [0; 0] metre) (mkQuantity [0; 1] metre) = Ok g /\
    forall i, (i < 2)%nat -> nth i (neighbors g) [] = [].
Proof.
  assert (Hr : 0 <= nth 1 [0; 0] 0 - nth 0 [0; 0] 0 + 1 / 100) by (cbn [nth]; lra).
  destruct (find_neighbor_pixels_spec [0; 0] [0; 1] _ Hr eq_refl) as [nbrs [Hf _]].
  assert (Hg : guess_camera_geometry (mkQuantity [0; 0] metre) (mkQuantity [0; 1] metre) =
               Ok (mkCameraGeometry (CamName "unknown") [0; 1]%nat
                     (mkQuantity [0; 0] metre) (mkQuantity [0; 1] metre)
                     (mkQuantity (map (fun o => o * guessed_area (mkQuantity [0; 0] metre)
                                                     (mkQuantity [0; 1] metre))
                                      (ones 2))
                                 (mkUnit (1 ^ 2) 2))
                     nbrs "hexagonal")).
  { rewrite guess_camera_geometry_eval by (reflexivity || (cbn; lia)).
    cbn [value]. rewrite Hf. reflexivity. }
  eexists. split; [exact Hg|].
  exact (guess_camera_geometry_stacked_first_pixels
           (mkQuantity [0; 0] metre) (mkQuantity [0; 1] metre) _
           eq_refl eq_refl ltac:(cbn; lia) eq_refl eq_refl stacked_pair_far Hg).
Defined.

End MoreGuess.

(** ** More on rotate *)

Section MoreRotate.
Import Numpy Scipy Camera.

Lemma turn_isometry (m : matrix2) (p q : R * R) :
  orthonormal_rows m -> distance (turn m p) (turn m q) = distance p q.
Proof.
  intros [H1 [H2 H3]]. unfold distance, turn. cbn [fst snd]. f_equal.
  destruct m as [[a b] [c d]], p as [px py], q as [qx qy]. cbn [fst snd] in *.
  replace ((a * px + c * py - (a * qx + c * qy)) ^ 2 +
           (b * px + d * py - (b * qx + d * qy)) ^ 2)
    with ((a * a + b * b) * ((px - qx) * (px - qx)) +
          (c * c + d * d) * ((py - qy) * (py - qy)) +
          2 * (a * c + b * d) * ((px - qx) * (py - qy))) by ring.
  rewrite H1, H2, H3. ring.
Qed.

Section WithMatrix.
Variable angle_like : Type.
Variable rotation_matrix_2d : angle_like -> result matrix2.

Lemma rotate_inv (self self' : CameraGeometry) (angle : angle_like) :
  rotate angle_like rotation_matrix_2d self angle = Ok self' ->
  exists rotmat,
    rotation_matrix_2d angle = Ok rotmat /\
    List.length (value (pix_x self)) = List.length (value (pix_y self)) /\
    self' = mkCameraGeometry (cam_id self) (pix_id self)
              (mkQuantity (map (fun xy => fst (turn rotmat xy))
                               (combine (value (pix_x self)) (value (pix_y self))))
                          (Camera.unit (pix_x self)))
              (mkQuantity (map (fun xy => snd (turn rotmat xy))
                               (combine (value (pix_x self)) (value (pix_y self))))
                          (Camera.unit (pix_x self)))
              (pix_area self) (neighbors self) (pix_type self).
Proof.
  unfold rotate, dot2, array_T.
  destruct (rotation_matrix_2d angle) as [rotmat|]; cbn [bind]; [|discriminate].
  destruct (Nat.eqb_spec (List.length (value (pix_x self)))
                         (List.length (value (pix_y self)))) as [Hlen | _];
    cbn [bind]; [|discriminate].
  intros H. exists rotmat. split; [reflexivity|]. split; [exact Hlen|].
  injection H as <-. reflexivity.
Qed.

Lemma rotate_eval (self : CameraGeometry) (angle : angle_like) (rotmat : matrix2) :
  rotation_matrix_2d angle = Ok rotmat ->
  List.length (value (pix_x self)) = List.length (value (pix_y self)) ->
  rotate angle_like rotation_matrix_2d self angle =
  Ok (mkCameraGeometry (cam_id self) (pix_id self)
        (mkQuantity (map (fun xy => fst (turn rotmat xy))
                         (combine (value (pix_x self)) (value (pix_y self))))
                    (Camera.unit (pix_x self)))
        (mkQuantity (map (fun xy => snd (turn rotmat xy))
                         (combine (value (pix_x self)) (value (pix_y self))))
                    (Camera.unit (pix_x self)))
        (pix_area self) (neighbors self) (pix_type self)).
Proof.
  intros Hm Hlen. unfold rotate, dot2. rewrite Hm. cbn [bind].
  rewrite (array_T_ok _ _ Hlen). reflexivity.
Qed.

(** A rotation does not change the neighbours: for a matrix with
    orthonormal rows, [find_neighbor_pixels] returns on the rotated
    coordinates as on the coordinates before the rotation, and a pixel has
    the same neighbours in both results. *)
Theorem rotate_keeps_neighbors (self self' : CameraGeometry) (angle : angle_like)
        (rotmat : matrix2) (rad : R) :
  rotation_matrix_2d angle = Ok rotmat ->
  orthonormal_rows rotmat ->
  rotate angle_like rotation_matrix_2d self angle = Ok self' ->
  exists nbrs nbrs',
    find_neighbor_pixels (value (pix_x self)) (value (pix_y self)) rad = Ok nbrs /\
    find_neighbor_pixels (value (pix_x self')) (value (pix_y self')) rad = Ok nbrs' /\
    List.length nbrs' = List.length nbrs /\
    forall i j, In j (nth i nbrs' []) <-> In j (nth i nbrs []).
Proof.
  intros Hm Ho Hr. destruct (rotate_inv _ _ _ Hr) as [m' [Hm' [Hlen ->]]].
  assert (m' = rotmat) by congruence. subst m'.
  cbn [pix_x pix_y value].
  set (pts := combine (value (pix_x self)) (value (pix_y self))).
  assert (Hn : List.length pts = List.length (value (pix_x self))).
  { unfold pts. rewrite length_combine, <- Hlen. apply Nat.min_id. }
  assert (Hlen' : List.length (map (fun xy => fst (turn rotmat xy)) pts) =
                  List.length (map (fun xy => snd (turn rotmat xy)) pts))
    by now rewrite !length_map.
  destruct (find_neighbor_pixels_spec_abs _ _ rad Hlen) as [nbrs [Hf [Hl Hs]]].
  destruct (find_neighbor_pixels_spec_abs _ _ rad Hlen') as [nbrs' [Hf' [Hl' Hs']]].
  fold pts in Hs. rewrite combine_map_same in Hs'. rewrite length_map, Hn in Hl', Hs'.
  exists nbrs, nbrs'. split; [exact Hf|]. split; [exact Hf'|].
  split; [congruence|]. intros i j.
  destruct (Nat.lt_ge_cases i (List.length (value (pix_x self)))) as [Hi | Hi].
  - rewrite (Hs i j Hi), (Hs' i j Hi).
    assert (Ht : forall k, (k < List.length (value (pix_x self)))%nat ->
              nth k (map (fun x => (fst (turn rotmat x), snd (turn rotmat x))) pts) (0, 0) =
              turn rotmat (nth k pts (0, 0))).
    { intros k Hk.
      rewrite (nth_indep _ (0, 0) (fst (turn rotmat (0, 0)), snd (turn rotmat (0, 0))))
        by (rewrite length_map; lia).
      rewrite (map_nth (fun x => (fst (turn rotmat x), snd (turn rotmat x)))).
      now destruct (turn rotmat (nth k pts (0, 0))). }
    split; intros [Hj [Hne Hd]]; (split; [exact Hj|]); (split; [exact Hne|]).
    + rewrite (Ht j Hj), (Ht i Hi), (turn_isometry _ _ _ Ho) in Hd. exact Hd.
    + rewrite (Ht j Hj), (Ht i Hi), (turn_isometry _ _ _ Ho). exact Hd.
  - rewrite !nth_overflow by lia. reflexivity.
Qed.

(** Two rotations whose matrices multiply to the identity give back the
    coordinate values (and leave everything else as it was). *)
Theorem rotate_there_and_back (self : CameraGeometry) (angle back : angle_like)
        (m1 m2 : matrix2) :
  rotation_matrix_2d angle = Ok m1 ->
  rotation_matrix_2d back = Ok m2 ->
  mat_mul m1 m2 = mat_id ->
  List.length (value (pix_x self)) = List.length (value (pix_y self)) ->
  exists self1 self2,
    rotate angle_like rotation_matrix_2d self angle = Ok self1 /\
    rotate angle_like rotation_matrix_2d self1 back = Ok self2 /\
    value (pix_x self2) = value (pix_x self) /\
    value (pix_y self2) = value (pix_y self) /\
    Camera.unit (pix_x self2) = Camera.unit (pix_x self) /\
    cam_id self2 = cam_id self /\ pix_id self2 = pix_id self /\
    pix_area self2 = pix_area self /\ neighbors self2 = neighbors self /\
    pix_type self2 = pix_type self.
Proof.
  intros H1 H2 Hid Hlen.
  assert (Hid' : forall xy, turn m2 (turn m1 xy) = xy).
  { intros [x y]. destruct m1 as [[a1 b1] [c1 d1]], m2 as [[a2 b2] [c2 d2]].
    unfold mat_mul, mat_id in Hid. cbn [fst snd] in Hid.
    injection Hid as E1 E2 E3 E4. unfold turn. cbn [fst snd]. f_equal.
    - replace (a2 * (a1 * x + c1 * y) + c2 * (b1 * x + d1 * y))
        with ((a1 * a2 + b1 * c2) * x + (c1 * a2 + d1 * c2) * y) by ring.
      rewrite E1, E3. ring.
    - replace (b2 * (a1 * x + c1 * y) + d2 * (b1 * x + d1 * y))
        with ((a1 * b2 + b1 * d2) * x + (c1 * b2 + d1 * d2) * y) by ring.
      rewrite E2, E4. ring. }
  assert (Hc : forall (l1 l2 : list R), List.length l1 = List.length l2 ->
             map fst (combine l1 l2) = l1 /\ map snd (combine l1 l2) = l2).
  { induction l1 as [|a l1 IH]; intros [|b l2] Hl; try discriminate; [now split|].
    cbn [combine map fst snd]. destruct (IH l2 ltac:(cbn in Hl; lia)) as [E1 E2].
    now rewrite E1, E2. }
  destruct (Hc _ _ Hlen) as [Ex Ey].
  pose proof (rotate_eval self angle m1 H1 Hlen) as R1.
  set (self1 := mkCameraGeometry (cam_id self) (pix_id self)
                  (mkQuantity (map (fun xy => fst (turn m1 xy))
                                   (combine (value (pix_x self)) (value (pix_y self))))
                              (Camera.unit (pix_x self)))
                  (mkQuantity (map (fun xy => snd (turn m1 xy))
                                   (combine (value (pix_x self)) (value (pix_y self))))
                              (Camera.unit (pix_x self)))
                  (pix_area self) (neighbors self) (pix_type self)) in *.
  assert (Hlen1 : List.length (value (pix_x self1)) = List.length (value (pix_y self1))).
  { unfold self1. cbn [pix_x pix_y value]. now rewrite !length_map. }
  pose proof (rotate_eval self1 back m2 H2 Hlen1) as R2.
  exists self1. eexists. split; [exact R1|]. split; [exact R2|].
  cbn [pix_x pix_y value cam_id pix_id pix_area neighbors pix_type Camera.unit self1].
  unfold self1. cbn [pix_x pix_y value cam_id pix_id pix_area neighbors pix_type
                     Camera.unit].
  rewrite combine_map_same, !map_map.
  repeat split.
  - etransitivity; [|exact Ex]. apply map_ext. intros xy.
    change (fst (turn m2 (turn m1 xy)) = fst xy). now rewrite Hid'.
  - etransitivity; [|exact Ey]. apply map_ext. intros xy.
    change (snd (turn m2 (turn m1 xy)) = snd xy). now rewrite Hid'.
Qed.

End WithMatrix.

Lemma quarter_turn_orthonormal : orthonormal_rows ((0, -1), (1, 0)).
Proof. unfold orthonormal_rows. cbn [fst snd]. repeat split; ring. Qed.

Lemma rotate_two_pixels :
  rotate bool quarter_turn_back two_pixels true =
  Ok (mkCameraGeometry (CamNumber 1) [0; 1]%nat
        (mkQuantity [0 * 1 + 1 * 0; 0 * 0 + 1 * 1] metre)
        (mkQuantity [-1 * 1 + 0 * 0; -1 * 0 + 0 * 1] metre)
        (mkQuantity [1; 1] (mkUnit 1 2)) [[1%nat]; [0%nat]] "rectangular").
Proof. reflexivity. Qed.

Lemma rotate_keeps_neighbors_witness :
  quarter_turn_back true = Ok ((0, -1), (1, 0)) /\
  orthonormal_rows ((0, -1), (1, 0)) /\
  exists nbrs nbrs',
    find_neighbor_pixels [1; 0] [0; 1] 2 = Ok nbrs /\
    find_neighbor_pixels [0 * 1 + 1 * 0; 0 * 0 + 1 * 1]
                         [-1 * 1 + 0 * 0; -1 * 0 + 0 * 1] 2 = Ok nbrs' /\
    List.length nbrs' = List.length nbrs /\
    forall i j, In j (nth i nbrs' []) <-> In j (nth i nbrs []).
Proof.
  split; [reflexivity|]. split; [exact quarter_turn_orthonormal|].
  exact (rotate_keeps_neighbors bool quarter_turn_back two_pixels _ true _ 2
           eq_refl quarter_turn_orthonormal rotate_two_pixels).
Defined.

Lemma rotate_there_and_back_witness :
  mat_mul ((0, -1), (1, 0)) ((0, 1), (-1, 0)) = mat_id /\
  exists self1 self2,
    rotate bool quarter_turn_back two_pixels true = Ok self1 /\
    rotate bool quarter_turn_back self1 false = Ok self2 /\
    value (pix_x self2) = [1; 0] /\ value (pix_y self2) = [0; 1].
Proof.
  assert (Hid : mat_mul ((0, -1), (1, 0)) ((0, 1), (-1, 0)) = mat_id).
  { unfold mat_mul, mat_id. cbn [fst snd]. repeat f_equal; ring. }
  split; [exact Hid|].
  destruct (rotate_there_and_back bool quarter_turn_back two_pixels true false
              _ _ eq_refl eq_refl Hid eq_refl)
    as [s1 [s2 [E1 [E2 [Ex [Ey _]]]]]].
  exists s1, s2. repeat split; assumption.
Defined.

End MoreRotate.

(** ** make_rectangular_camera_geometry *)

Section RectangularCamera.
Import Numpy Scipy Camera.

Lemma linspace_ok (start stop : R) (num : Z) :
  (0 <= num)%Z ->
  exists l, linspace start stop num = Ok l /\ List.length l = Z.to_nat num.
Proof.
  intros H. destruct (linspace start stop num) as [l|e] eqn:E.
  - exists l. split; [reflexivity | now apply linspace_length in E].
  - unfold linspace in E. destruct (Z.ltb_spec num 0); [lia|].
    destruct (Z.to_nat num) as [|[|n]]; discriminate.
Qed.

Lemma meshgrid_x_length (bx by_ : list R) :
  List.length (ravel (fst (meshgrid bx by_))) = (List.length by_ * List.length bx)%nat.
Proof.
  unfold ravel, meshgrid. cbn [fst].
  induction by_ as [|y tl IH]; [reflexivity|].
  cbn [map List.length]. rewrite concat_cons, length_app, IH. lia.
Qed.

Lemma meshgrid_y_length (bx by_ : list R) :
  List.length (ravel (snd (meshgrid bx by_))) = (List.length by_ * List.length bx)%nat.
Proof.
  unfold ravel, meshgrid. cbn [snd].
  induction by_ as [|y tl IH]; [reflexivity|].
  cbn [map List.length]. rewrite concat_cons, length_app, length_map, IH. lia.
Qed.

(** The pixel of row [r] and column [c] has the index [r * len(bx) + c];
    its coordinates are [bx[c]] and [by[r]]. *)
Lemma meshgrid_x_nth (bx by_ : list R) (r c : nat) :
  (r < List.length by_)%nat -> (c < List.length bx)%nat ->
  nth (r * List.length bx + c) (ravel (fst (meshgrid bx by_))) 0 = nth c bx 0.
Proof.
  unfold ravel, meshgrid. cbn [fst]. revert r.
  induction by_ as [|y tl IH]; intros r Hr Hc; cbn [List.length] in Hr; [lia|].
  cbn [map]. rewrite concat_cons. destruct r as [|r].
  - cbn [Nat.mul Nat.add]. now rewrite app_nth1.
  - rewrite app_nth2 by (cbn [Nat.mul]; lia).
    replace (S r * List.length bx + c - List.length bx)%nat
      with (r * List.length bx + c)%nat by (cbn [Nat.mul]; lia).
    apply IH; lia.
Qed.

Lemma meshgrid_y_nth (bx by_ : list R) (r c : nat) :
  (r < List.length by_)%nat -> (c < List.length bx)%nat ->
  nth (r * List.length bx + c) (ravel (snd (meshgrid bx by_))) 0 = nth r by_ 0.
Proof.
  unfold ravel, meshgrid. cbn [snd]. revert r.
  induction by_ as [|y tl IH]; intros r Hr Hc; cbn [List.length] in Hr; [lia|].
  cbn [map]. rewrite concat_cons. destruct r as [|r].
  - cbn [Nat.mul Nat.add nth]. rewrite app_nth1 by now rewrite length_map.
    rewrite (nth_indep _ 0 ((fun _ => y) 0)) by now rewrite length_map.
    now rewrite (map_nth (fun _ => y)).
  - rewrite app_nth2 by (rewrite length_map; cbn [Nat.mul]; lia).
    rewrite length_map.
    replace (S r * List.length bx + c - List.length bx)%nat
      with (r * List.length bx + c)%nat by (cbn [Nat.mul]; lia).
    cbn [nth]. apply IH; lia.
Qed.

Lemma mean_constant (v : R) (n : nat) :
  (0 < n)%nat -> mean (map (fun o => o * v / 2) (ones n)) = v / 2.
Proof.
  intros Hn. unfold mean, ones. rewrite length_map, repeat_length.
  assert (Hs : fold_right Rplus 0 (map (fun o => o * v / 2) (repeat 1 n)) = INR n * (v / 2)).
  { clear Hn. induction n as [|n IH]; [cbn; lra|].
    cbn [repeat map fold_right]. rewrite IH, S_INR. lra. }
  rewrite Hs. field. apply not_0_INR. lia.
Qed.

(** The call as a function of the two grids, once there are two pixels. *)
Lemma make_rectangular_eval (npix_x npix_y : Z) (range_x range_y : R * R)
      (bx by_ : list R) :
  linspace (fst range_x) (snd range_x) npix_x = Ok bx ->
  linspace (fst range_y) (snd range_y) npix_y = Ok by_ ->
  (2 <= List.length by_ * List.length bx)%nat ->
  let xx := ravel (fst (meshgrid bx by_)) in
  let yy := ravel (snd (meshgrid bx by_)) in
  let dx := nth 1 xx 0 - nth 0 xx 0 in
  make_rectangular_camera_geometry npix_x npix_y range_x range_y =
  (nn <- find_neighbor_pixels xx yy (dx / 2 * (2001 / 1000)) ;;
   Ok (mkCameraGeometry (CamNumber (-1)) (seq 0 (Z.to_nat (npix_x * npix_y)))
         (mkQuantity xx (unit_mul metre metre))
         (mkQuantity yy (unit_mul metre metre))
         (mkQuantity (map (fun r => (2 * r) ^ 2)
                          (map (fun o => o * dx / 2) (ones (List.length xx))))
                     (unit_mul metre metre))
         nn "rectangular")).
Proof.
  intros Hx Hy Hn xx yy dx. subst xx yy dx. unfold make_rectangular_camera_geometry.
  rewrite Hx, Hy. cbn [bind].
  pose proof (meshgrid_x_length bx by_) as Hlx.
  rewrite (getitem_ok (mkQuantity (ravel (fst (meshgrid bx by_))) metre) 1)
    by (cbn [value]; lia).
  rewrite (getitem_ok (mkQuantity (ravel (fst (meshgrid bx by_))) metre) 0)
    by (cbn [value]; lia).
  cbn [bind value Camera.unit].
  rewrite mean_constant by lia. reflexivity.
Qed.

(** A camera of fewer than two pixels cannot be made: the pixel width is
    read off the first two pixels, and that raises [IndexError]. *)
Theorem make_rectangular_too_few (npix_x npix_y : Z) (range_x range_y : R * R) :
  (0 <= npix_x)%Z -> (0 <= npix_y)%Z -> (npix_x * npix_y < 2)%Z ->
  make_rectangular_camera_geometry npix_x npix_y range_x range_y =
  Raise (IndexError "index is out of bounds").
Proof.
  intros Hx Hy Hn. unfold make_rectangular_camera_geometry.
  destruct (linspace_ok (fst range_x) (snd range_x) npix_x Hx) as [bx [Ex Lx]].
  destruct (linspace_ok (fst range_y) (snd range_y) npix_y Hy) as [by_ [Ey Ly]].
  rewrite Ex, Ey. cbn [bind].
  rewrite getitem_out; [reflexivity|].
  cbn [value]. rewrite meshgrid_x_length, Lx, Ly. nia.
Qed.

Lemma make_rectangular_too_few_witness :
  (0 <= 1)%Z /\ (0 <= 1)%Z /\ (1 * 1 < 2)%Z /\
  make_rectangular_camera_geometry 1 1 (-1 / 2, 1 / 2) (-1 / 2, 1 / 2) =
  Raise (IndexError "index is out of bounds").
Proof.
  split; [lia|]. split; [lia|]. split; [lia|].
  apply (make_rectangular_too_few 1 1); lia.
Defined.

Lemma grid_first_step (start stop : R) (npix : Z) (bx : list R) :
  (2 <= npix)%Z -> linspace start stop npix = Ok bx ->
  List.length bx = Z.to_nat npix /\
  forall c, (c < Z.to_nat npix)%nat ->
            nth c bx 0 = INR c * ((stop - start) / INR (Z.to_nat npix - 1)) + start.
Proof.
  intros Hn Hl. split; [now apply linspace_length in Hl|].
  intros c Hc.
  assert (Hz : npix = Z.of_nat (S (S (Z.to_nat npix - 2)))) by lia.
  rewrite Hz in Hl.
  rewrite (linspace_nth _ _ _ c _ Hl) by lia.
  replace (S (Z.to_nat npix - 2)) with (Z.to_nat npix - 1)%nat by lia. reflexivity.
Qed.

Lemma make_rectangular_dx (npix_x npix_y : Z) (range_x : R * R) (bx by_ : list R) :
  (2 <= npix_x)%Z -> (1 <= npix_y)%Z ->
  linspace (fst range_x) (snd range_x) npix_x = Ok bx ->
  List.length by_ = Z.to_nat npix_y ->
  nth 1 (ravel (fst (meshgrid bx by_))) 0 - nth 0 (ravel (fst (meshgrid bx by_))) 0 =
  pitch range_x npix_x.
Proof.
  intros Hx Hy Hl Lb. destruct (grid_first_step _ _ _ _ Hx Hl) as [Lx Hn].
  pose proof (meshgrid_x_nth bx by_ 0 1 ltac:(lia) ltac:(lia)) as H1.
  pose proof (meshgrid_x_nth bx by_ 0 0 ltac:(lia) ltac:(lia)) as H0.
  cbn [Nat.mul Nat.add] in H1, H0. rewrite H1, H0.
  rewrite (Hn 1%nat), (Hn 0%nat) by lia. unfold pitch. cbn [INR]. lra.
Qed.

Lemma pitch_sign (range : R * R) (npix : Z) :
  (2 <= npix)%Z ->
  (fst range <= snd range -> 0 <= pitch range npix) /\
  (snd range < fst range -> pitch range npix < 0).
Proof.
  intros Hn.
  assert (Hp : 0 < INR (Z.to_nat npix - 1)) by (apply lt_0_INR; lia).
  pose proof (Rinv_0_lt_compat _ Hp) as Hi.
  unfold pitch, Rdiv. split; intros H; nra.
Qed.

(** The x range may run either way: with two columns or more and one row
    or more the call returns; the neighbour radius is 2.001 times half the
    pitch, of which only the absolute value counts, so that with a range
    the wrong way round (a negative pitch) the neighbours of a pixel are
    still the other pixels within that distance. *)
Theorem make_rectangular_any_range (npix_x npix_y : Z) (range_x range_y : R * R) :
  (2 <= npix_x)%Z -> (1 <= npix_y)%Z ->
  exists g,
    make_rectangular_camera_geometry npix_x npix_y range_x range_y = Ok g /\
    List.length (neighbors g) = Z.to_nat (npix_x * npix_y) /\
    forall i j, (i < Z.to_nat (npix_x * npix_y))%nat ->
      (In j (nth i (neighbors g) []) <->
       (j < Z.to_nat (npix_x * npix_y))%nat /\ j <> i /\
       distance (nth j (combine (value (pix_x g)) (value (pix_y g))) (0, 0))
                (nth i (combine (value (pix_x g)) (value (pix_y g))) (0, 0))
       <= Rabs (pitch range_x npix_x / 2 * (2001 / 1000))).
Proof.
  intros Hx Hy.
  destruct (linspace_ok (fst range_x) (snd range_x) npix_x ltac:(lia)) as [bx [Ex Lx]].
  destruct (linspace_ok (fst range_y) (snd range_y) npix_y ltac:(lia)) as [by_ [Ey Ly]].
  assert (Hlen : List.length (ravel (fst (meshgrid bx by_))) =
                 List.length (ravel (snd (meshgrid bx by_))))
    by now rewrite meshgrid_x_length, meshgrid_y_length.
  destruct (find_neighbor_pixels_spec_abs _ _
              (pitch range_x npix_x / 2 * (2001 / 1000)) Hlen) as [nn [Hf [Hl Hs]]].
  assert (Hn : Z.to_nat (npix_x * npix_y) = (Z.to_nat npix_y * Z.to_nat npix_x)%nat)
    by (rewrite Z2Nat.inj_mul by lia; lia).
  rewrite meshgrid_x_length, Lx, Ly, <- Hn in Hl, Hs.
  rewrite (make_rectangular_eval _ _ _ _ bx by_ Ex Ey) by nia.
  rewrite (make_rectangular_dx npix_x npix_y range_x bx by_ Hx Hy Ex Ly).
  rewrite Hf. cbn [bind]. eexists. split; [reflexivity|].
  cbn [neighbors pix_x pix_y value]. split; [exact Hl | exact Hs].
Qed.

Lemma make_rectangular_any_range_witness :
  (2 <= 2)%Z /\ (1 <= 1)%Z /\
  exists g,
    make_rectangular_camera_geometry 2 1 (1, 0) (0, 0) = Ok g /\
    List.length (neighbors g) = Z.to_nat (2 * 1).
Proof.
  split; [lia|]. split; [lia|].
  destruct (make_rectangular_any_range 2 1 (1, 0) (0, 0) ltac:(lia) ltac:(lia))
    as [g [Hg [Hl _]]].
  exists g. split; [exact Hg | exact Hl].
Defined.

(** What the call returns for two columns or more, one row or more and an
    x range the right way round. *)
Lemma make_rectangular_ok (npix_x npix_y : Z) (range_x range_y : R * R) :
  (2 <= npix_x)%Z -> (1 <= npix_y)%Z -> fst range_x <= snd range_x ->
  exists bx by_ nn,
    linspace (fst range_x) (snd range_x) npix_x = Ok bx /\
    linspace (fst range_y) (snd range_y) npix_y = Ok by_ /\
    List.length bx = Z.to_nat npix_x /\ List.length by_ = Z.to_nat npix_y /\
    find_neighbor_pixels (ravel (fst (meshgrid bx by_))) (ravel (snd (meshgrid bx by_)))
                         (pitch range_x npix_x / 2 * (2001 / 1000)) = Ok nn /\
    List.length nn = (Z.to_nat npix_y * Z.to_nat npix_x)%nat /\
    (forall i j, (i < Z.to_nat npix_y * Z.to_nat npix_x)%nat ->
       (In j (nth i nn []) <->
        (j < Z.to_nat npix_y * Z.to_nat npix_x)%nat /\ j <> i /\
        distance (nth j (combine (ravel (fst (meshgrid bx by_)))
                                 (ravel (snd (meshgrid bx by_)))) (0, 0))
                 (nth i (combine (ravel (fst (meshgrid bx by_)))
                                 (ravel (snd (meshgrid bx by_)))) (0, 0))
        <= pitch range_x npix_x / 2 * (2001 / 1000))) /\
    make_rectangular_camera_geometry npix_x npix_y range_x range_y =
    Ok (mkCameraGeometry (CamNumber (-1)) (seq 0 (Z.to_nat (npix_x * npix_y)))
          (mkQuantity (ravel (fst (meshgrid bx by_))) (unit_mul metre metre))
          (mkQuantity (ravel (snd (meshgrid bx by_))) (unit_mul metre metre))
          (mkQuantity (map (fun r => (2 * r) ^ 2)
                           (map (fun o => o * pitch range_x npix_x / 2)
                                (ones (List.length (ravel (fst (meshgrid bx by_)))))))
                      (unit_mul metre metre))
          nn "rectangular").
Proof.
  intros Hx Hy Hrange.
  destruct (linspace_ok (fst range_x) (snd range_x) npix_x ltac:(lia)) as [bx [Ex Lx]].
  destruct (linspace_ok (fst range_y) (snd range_y) npix_y ltac:(lia)) as [by_ [Ey Ly]].
  pose proof (proj1 (pitch_sign range_x npix_x Hx) Hrange) as Hp.
  assert (Hrad : 0 <= pitch range_x npix_x / 2 * (2001 / 1000)) by lra.
  assert (Hlen : List.length (ravel (fst (meshgrid bx by_))) =
                 List.length (ravel (snd (meshgrid bx by_))))
    by now rewrite meshgrid_x_length, meshgrid_y_length.
  destruct (find_neighbor_pixels_spec _ _ _ Hrad Hlen) as [nn [Hf [Hl Hs]]].
  rewrite meshgrid_x_length, Lx, Ly in Hl, Hs.
  exists bx, by_, nn.
  split; [exact Ex|]. split; [exact Ey|]. split; [exact Lx|]. split; [exact Ly|].
  split; [exact Hf|]. split; [exact Hl|]. split; [exact Hs|].
  rewrite (make_rectangular_eval _ _ _ _ bx by_ Ex Ey) by nia.
  rewrite (make_rectangular_dx npix_x npix_y range_x bx by_ Hx Hy Ex Ly).
  rewrite Hf. reflexivity.
Qed.

(** The camera that is returned has [npix_x * npix_y] pixels in every field,
    the same area, the square of the x pitch, for each of them, the pixel
    type rectangular and the identifier -1; the two coordinate arrays carry
    a unit of dimension two (metres, multiplied by [u.m] once more). *)
Theorem make_rectangular_result (npix_x npix_y : Z) (range_x range_y : R * R) :
  (2 <= npix_x)%Z -> (1 <= npix_y)%Z -> fst range_x <= snd range_x ->
  exists g,
    make_rectangular_camera_geometry npix_x npix_y range_x range_y = Ok g /\
    cam_id g = CamNumber (-1) /\ pix_type g = "rectangular"%string /\
    pix_id g = seq 0 (Z.to_nat (npix_x * npix_y)) /\
    List.length (value (pix_x g)) = Z.to_nat (npix_x * npix_y) /\
    List.length (value (pix_y g)) = Z.to_nat (npix_x * npix_y) /\
    List.length (value (pix_area g)) = Z.to_nat (npix_x * npix_y) /\
    List.length (neighbors g) = Z.to_nat (npix_x * npix_y) /\
    (forall a, In a (value (pix_area g)) -> a = pitch range_x npix_x ^ 2) /\
    dim (Camera.unit (pix_x g)) = 2%nat /\ dim (Camera.unit (pix_y g)) = 2%nat.
Proof.
  intros Hx Hy Hrange.
  destruct (make_rectangular_ok npix_x npix_y range_x range_y Hx Hy Hrange)
    as [bx [by_ [nn [_ [_ [Lx [Ly [_ [Hl [_ Hg]]]]]]]]]].
  eexists. split; [exact Hg|].
  cbn [cam_id pix_type pix_id pix_x pix_y pix_area neighbors value Camera.unit].
  assert (Hn : Z.to_nat (npix_x * npix_y) = (Z.to_nat npix_y * Z.to_nat npix_x)%nat)
    by (rewrite Z2Nat.inj_mul by lia; lia).
  split; [reflexivity|]. split; [reflexivity|]. split; [reflexivity|].
  split; [now rewrite meshgrid_x_length, Lx, Ly|].
  split; [now rewrite meshgrid_y_length, Lx, Ly|].
  split; [unfold ones; now rewrite !length_map, repeat_length, meshgrid_x_length, Lx, Ly|].
  split; [now rewrite Hl|].
  split; [|split; reflexivity].
  intros a Ha. rewrite map_map in Ha. apply in_map_iff in Ha.
  destruct Ha as [o [<- Ho]]. unfold ones in Ho. apply repeat_spec in Ho. subst o. field.
Qed.

Lemma make_rectangular_result_witness :
  (2 <= 40)%Z /\ (1 <= 40)%Z /\ fst (-1 / 2, 1 / 2) <= snd (-1 / 2, 1 / 2) /\
  exists g,
    make_rectangular_camera_geometry 40 40 (-1 / 2, 1 / 2) (-1 / 2, 1 / 2) = Ok g /\
    pix_type g = "rectangular"%string /\
    List.length (neighbors g) = Z.to_nat (40 * 40) /\
    dim (Camera.unit (pix_x g)) = 2%nat.
Proof.
  assert (H : fst (-1 / 2, 1 / 2) <= snd (-1 / 2, 1 / 2)) by (cbn [fst snd]; lra).
  split; [lia|]. split; [lia|]. split; [exact H|].
  destruct (make_rectangular_result 40 40 (-1 / 2, 1 / 2) (-1 / 2, 1 / 2)
              ltac:(lia) ltac:(lia) H)
    as [g [Hg [_ [Ht [_ [_ [_ [_ [Hn [_ [Hd _]]]]]]]]]]].
  exists g. repeat split; assumption.
Defined.

Lemma grid_point (bx by_ : list R) (r c : nat) :
  (r < List.length by_)%nat -> (c < List.length bx)%nat ->
  nth (r * List.length bx + c)
      (combine (ravel (fst (meshgrid bx by_))) (ravel (snd (meshgrid bx by_)))) (0, 0) =
  (nth c bx 0, nth r by_ 0).
Proof.
  intros Hr Hc.
  rewrite combine_nth by now rewrite meshgrid_x_length, meshgrid_y_length.
  now rewrite meshgrid_x_nth, meshgrid_y_nth.
Qed.

(** In the camera that is returned every pixel and the next pixel of its
    row are neighbours of each other. *)
Theorem make_rectangular_row_neighbors (npix_x npix_y : Z) (range_x range_y : R * R)
        (g : CameraGeometry) (r c : nat) :
  (2 <= npix_x)%Z -> (1 <= npix_y)%Z -> fst range_x <= snd range_x ->
  make_rectangular_camera_geometry npix_x npix_y range_x range_y = Ok g ->
  (r < Z.to_nat npix_y)%nat -> (S c < Z.to_nat npix_x)%nat ->
  In (r * Z.to_nat npix_x + S c)%nat (nth (r * Z.to_nat npix_x + c) (neighbors g) []) /\
  In (r * Z.to_nat npix_x + c)%nat (nth (r * Z.to_nat npix_x + S c) (neighbors g) []).
Proof.
  intros Hx Hy Hrange Hg Hr Hc.
  destruct (make_rectangular_ok npix_x npix_y range_x range_y Hx Hy Hrange)
    as [bx [by_ [nn [Ex [_ [Lx [Ly [_ [_ [Hs Hg']]]]]]]]]].
  rewrite Hg' in Hg. injection Hg as <-. cbn [neighbors].
  destruct (grid_first_step _ _ _ _ Hx Ex) as [_ Hn].
  pose proof (proj1 (pitch_sign range_x npix_x Hx) Hrange) as Hp.
  assert (Hd : distance (nth (r * Z.to_nat npix_x + S c)
                           (combine (ravel (fst (meshgrid bx by_)))
                                    (ravel (snd (meshgrid bx by_)))) (0, 0))
                        (nth (r * Z.to_nat npix_x + c)
                           (combine (ravel (fst (meshgrid bx by_)))
                                    (ravel (snd (meshgrid bx by_)))) (0, 0))
               = pitch range_x npix_x).
  { rewrite <- Lx. rewrite !grid_point by lia.
    unfold distance. cbn [fst snd].
    rewrite (Hn (S c)), (Hn c) by lia. fold (pitch range_x npix_x).
    replace ((INR (S c) * pitch range_x npix_x + fst range_x -
              (INR c * pitch range_x npix_x + fst range_x)) ^ 2 +
             (nth r by_ 0 - nth r by_ 0) ^ 2)
      with (pitch range_x npix_x ^ 2) by (rewrite S_INR; ring).
    now apply sqrt_pow2. }
  split.
  - apply Hs; [nia|]. split; [nia|]. split; [lia|]. rewrite Hd. lra.
  - apply Hs; [nia|]. split; [nia|]. split; [lia|].
    rewrite distance_sym, Hd. lra.
Qed.

Lemma make_rectangular_row_neighbors_witness :
  exists g,
    make_rectangular_camera_geometry 40 40 (-1 / 2, 1 / 2) (-1 / 2, 1 / 2) = Ok g /\
    In (3 * Z.to_nat 40 + 8)%nat (nth (3 * Z.to_nat 40 + 7) (neighbors g) []) /\
    In (3 * Z.to_nat 40 + 7)%nat (nth (3 * Z.to_nat 40 + 8) (neighbors g) []).
Proof.
  assert (H : fst (-1 / 2, 1 / 2) <= snd (-1 / 2, 1 / 2)) by (cbn [fst snd]; lra).
  destruct (make_rectangular_ok 40 40 (-1 / 2, 1 / 2) (-1 / 2, 1 / 2)
              ltac:(lia) ltac:(lia) H)
    as [bx [by_ [nn [_ [_ [_ [_ [_ [_ [_ Hg]]]]]]]]]].
  eexists. split; [exact Hg|].
  exact (make_rectangular_row_neighbors 40 40 (-1 / 2, 1 / 2) (-1 / 2, 1 / 2) _ 3 7
           ltac:(lia) ltac:(lia) H Hg ltac:(lia) ltac:(lia)).
Defined.

(** The radius comes from the x pitch alone: a pixel and the pixel above
    it are neighbours exactly when the y pitch is at most 1.0005 times the
    x pitch. *)
Theorem make_rectangular_column_neighbors (npix_x npix_y : Z) (range_x range_y : R * R)
        (g : CameraGeometry) (r c : nat) :
  (2 <= npix_x)%Z -> (2 <= npix_y)%Z -> fst range_x <= snd range_x ->
  make_rectangular_camera_geometry npix_x npix_y range_x range_y = Ok g ->
  (S r < Z.to_nat npix_y)%nat -> (c < Z.to_nat npix_x)%nat ->
  In (S r * Z.to_nat npix_x + c)%nat (nth (r * Z.to_nat npix_x + c) (neighbors g) []) <->
  Rabs (pitch range_y npix_y) <= pitch range_x npix_x * (2001 / 2000).
Proof.
  intros Hx Hy Hrange Hg Hr Hc.
  destruct (make_rectangular_ok npix_x npix_y range_x range_y Hx ltac:(lia) Hrange)
    as [bx [by_ [nn [Ex [Ey [Lx [Ly [_ [_ [Hs Hg']]]]]]]]]].
  rewrite Hg' in Hg. injection Hg as <-. cbn [neighbors].
  destruct (grid_first_step _ _ _ _ Hy Ey) as [_ Hn].
  assert (Hd : distance (nth (S r * Z.to_nat npix_x + c)
                           (combine (ravel (fst (meshgrid bx by_)))
                                    (ravel (snd (meshgrid bx by_)))) (0, 0))
                        (nth (r * Z.to_nat npix_x + c)
                           (combine (ravel (fst (meshgrid bx by_)))
                                    (ravel (snd (meshgrid bx by_)))) (0, 0))
               = Rabs (pitch range_y npix_y)).
  { rewrite <- Lx. rewrite !grid_point by lia.
    unfold distance. cbn [fst snd].
    rewrite (Hn (S r)), (Hn r) by lia. fold (pitch range_y npix_y).
    replace ((nth c bx 0 - nth c bx 0) ^ 2 +
             (INR (S r) * pitch range_y npix_y + fst range_y -
              (INR r * pitch range_y npix_y + fst range_y)) ^ 2)
      with (Rsqr (pitch range_y npix_y)) by (rewrite S_INR; unfold Rsqr; ring).
    apply sqrt_Rsqr_abs. }
  rewrite (Hs (r * Z.to_nat npix_x + c)%nat (S r * Z.to_nat npix_x + c)%nat) by nia.
  rewrite Hd. split.
  - intros [_ [_ H]]. lra.
  - intros H. split; [nia|]. split; [nia|]. lra.
Qed.

Lemma make_rectangular_column_neighbors_witness :
  exists g,
    make_rectangular_camera_geometry 40 40 (-1 / 2, 1 / 2) (-1 / 2, 1 / 2) = Ok g /\
    (In (4 * Z.to_nat 40 + 7)%nat (nth (3 * Z.to_nat 40 + 7) (neighbors g) []) <->
     Rabs (pitch (-1 / 2, 1 / 2) 40) <= pitch (-1 / 2, 1 / 2) 40 * (2001 / 2000)).
Proof.
  assert (H : fst (-1 / 2, 1 / 2) <= snd (-1 / 2, 1 / 2)) by (cbn [fst snd]; lra).
  destruct (make_rectangular_ok 40 40 (-1 / 2, 1 / 2) (-1 / 2, 1 / 2)
              ltac:(lia) ltac:(lia) H)
    as [bx [by_ [nn [_ [_ [_ [_ [_ [_ [_ Hg]]]]]]]]]].
  eexists. split; [exact Hg|].
  exact (make_rectangular_column_neighbors 40 40 (-1 / 2, 1 / 2) (-1 / 2, 1 / 2) _ 3 7
           ltac:(lia) ltac:(lia) H Hg ltac:(lia) ltac:(lia)).
Defined.

End RectangularCamera.
